(** * Reflow: rule engine and exchange logger

    A shallow embedding of [RuleEngine] (rules/RuleEngine.ts) and [Logger]
    (logger/Logger.ts) together with the data model of types/index.ts.

    Conventions of the embedding.
    - A JavaScript string is a Rocq [string] holding its UTF-8 bytes, so the
      length of [TextEncoder.encode s] is [String.length s]; a surrogate on
      its own, as [s[i]] may give one, is held in three bytes.  A number
      the types declare (a priority, a status code, a count of days) is an
      integer.
    - A [Record<string,string>] is a [gmap string string] of its own
      properties; a [Date] is its [getTime ()], an integer of milliseconds.
      What the object inherits from [Object.prototype] is read where the
      source reads it, and the setter of [__proto__] is taken into account
      where the source assigns.
    - An optional field [f?: T] is an [option T]; the truthiness tests of the
      source ([if (x)], [x || '']) are written out, so that an empty string
      is told apart from an absent one exactly where the source does.
    - A [try]/[catch] is a sum: [inl v] is a normal completion, [inr msg] a
      thrown error with its [message].
    - Property access on parsed JSON looks at the own properties of a value
      first and then at its prototype chain.  The built-in prototypes and
      the functions they hold are objects of the platform: a walk that
      reaches one goes on there, and leaves the parsed document as it is.
      A write onto a built-in object changes the platform for later calls;
      every statement below is about one call on a given platform.
    - What the platform provides (regular expressions, the URL parser, the
      JSON codec, the built-in objects, the time zone) is a [Host] or a
      [TimeZone] record the code is parametrised by. *)

From Stdlib Require Import ZArith Ascii String List Bool Lia.
From Stdlib Require Import Sorting.Sorted Sorting.Permutation.
From stdpp Require Import gmap strings list fin_maps pretty.

Local Open Scope string_scope.
Local Open Scope Z_scope.

(** ** JavaScript values and idioms used by the sources *)

Module Js.

(** [inl v]: returned [v]; [inr msg]: threw an error with message [msg]. *)
Definition Exn (A : Type) : Type := A + string.

Definition ret {A} (a : A) : Exn A := inl a.
Definition throw {A} (msg : string) : Exn A := inr msg.
Definition bind {A B} (m : Exn A) (k : A -> Exn B) : Exn B :=
  match m with inl a => k a | inr e => inr e end.

(** The computation threw. *)
Definition throws {A} (r : Exn A) : Prop := exists message, r = inr message.

(** ToBoolean on a string: only the empty string is falsy. *)
Definition truthy (s : string) : bool := negb (String.eqb s "").

(** ToBoolean on an optional string: [undefined] and [''] are falsy. *)
Definition truthy_opt (o : option string) : bool :=
  match o with Some s => truthy s | None => false end.

(** [`${v}`] for an optional string. *)
Definition template (v : option string) : string :=
  match v with Some s => s | None => "undefined" end.

(** [v || ''] for an optional string. *)
Definition or_empty (v : option string) : string :=
  match v with Some s => s | None => "" end.

Definition lower_ascii (c : ascii) : ascii :=
  let n := nat_of_ascii c in
  if ((65 <=? n)%nat && (n <=? 90)%nat)%bool then ascii_of_nat (n + 32) else c.

Fixpoint lower_letters (s : string) : string :=
  match s with
  | EmptyString => EmptyString
  | String c r => String (lower_ascii c) (lower_letters r)
  end.

(** The three bytes of the Kelvin sign U+212A. *)
Definition is_kelvin (a b c : ascii) : bool :=
  ((nat_of_ascii a =? 226)%nat && (nat_of_ascii b =? 132)%nat
   && (nat_of_ascii c =? 170)%nat)%bool.

(** Every Kelvin sign replaced by the letter K. *)
Fixpoint kelvin_to_K (s : string) : string :=
  match s with
  | EmptyString => EmptyString
  | String a r =>
      match r with
      | String b (String c r') =>
          if is_kelvin a b c then String "K" (kelvin_to_K r')
          else String a (kelvin_to_K r)
      | _ => String a (kelvin_to_K r)
      end
  end.

(** [s.toLowerCase()], as far as a comparison with ASCII text can tell.
    The characters whose lower case is an ASCII letter are lowered: the
    letters A-Z and the Kelvin sign U+212A, which becomes [k].  A letter
    outside ASCII has its lower case outside ASCII; it is left as it is,
    and so differs from every ASCII text before and after.  The source
    calls [toLowerCase] only to look the result up among ASCII names. *)
Definition toLowerCase (s : string) : string := lower_letters (kelvin_to_K s).

(** [s.startsWith(p)]. *)
Definition startsWith (s p : string) : bool := String.prefix p s.

(** [String(n)] for an integer. *)
Definition of_int (n : Z) : string := pretty n.

(** [new TextEncoder().encode(s).length] *)
Definition utf8_length (s : string) : Z := Z.of_nat (String.length s).

(** A byte [10xxxxxx], which continues a character. *)
Definition continuation (c : ascii) : bool :=
  let n := nat_of_ascii c in ((128 <=? n)%nat && (n <? 192)%nat)%bool.

(** The bytes of a string, one list a character. *)
Definition characters (s : string) : list (list ascii) :=
  let grouped :=
    foldr (fun c acc =>
             if continuation c then (c :: fst acc, snd acc)
             else ([], (c :: fst acc) :: snd acc))
      ([], []) (String.list_ascii_of_string s) in
  match fst grouped with
  | [] => snd grouped
  | stray => stray :: snd grouped
  end.

(** The three bytes a code unit between U+0800 and U+FFFF is held in. *)
Definition three_bytes (u : N) : string :=
  String (ascii_of_N (224 + N.shiftr u 12))
    (String (ascii_of_N (128 + N.land (N.shiftr u 6) 63))
       (String (ascii_of_N (128 + N.land u 63)) EmptyString)).

(** The UTF-16 code units of a character: itself, or the two surrogates of
    a character of four bytes, each held in three bytes. *)
Definition code_units (char : list ascii) : list string :=
  match char with
  | [b1; b2; b3; b4] =>
      if (240 <=? nat_of_ascii b1)%nat then
        let point :=
          (N.shiftl (N.land (N_of_ascii b1) 7) 18
           + N.shiftl (N.land (N_of_ascii b2) 63) 12
           + N.shiftl (N.land (N_of_ascii b3) 63) 6
           + N.land (N_of_ascii b4) 63)%N in
        let offset := (point - 65536)%N in
        [ three_bytes (55296 + N.shiftr offset 10);
          three_bytes (56320 + N.land offset 1023) ]
      else [String.string_of_list_ascii char]
  | _ => [String.string_of_list_ascii char]
  end.

(** The UTF-16 code units [s.length] counts and [s[i]] indexes. *)
Definition utf16 (s : string) : list string :=
  flat_map code_units (characters s).

(** [s.replace(/[...]/g, f)] for a pattern that matches one character at a
    time: every character is replaced by [f] of it. *)
Fixpoint replace_each (f : ascii -> string) (s : string) : string :=
  match s with
  | EmptyString => EmptyString
  | String c r => f c +:+ replace_each f r
  end.

(** [s.split(c)]: the pieces between the occurrences of [c]; never empty. *)
Fixpoint split (c : ascii) (s : string) : list string :=
  match s with
  | EmptyString => [EmptyString]
  | String a r =>
      if Ascii.eqb a c then EmptyString :: split c r
      else match split c r with
           | p :: ps => String a p :: ps
           | [] => [String a EmptyString]
           end
  end.

(** [parts.pop()] on a non-empty array: the rest and the last element. *)
Fixpoint pop {A} (l : list A) : option (list A * A) :=
  match l with
  | [] => None
  | x :: r => match pop r with
              | None => Some ([], x)
              | Some (r', y) => Some (x :: r', y)
              end
  end.

Definition is_digit (c : ascii) : bool :=
  let n := nat_of_ascii c in ((48 <=? n)%nat && (n <=? 57)%nat)%bool.

(** Value of a run of decimal digits, most significant first. *)
Definition parse_digits (ds : list ascii) : N :=
  foldl (fun acc c => (10 * acc + N.of_nat (nat_of_ascii c - 48))%N) 0%N ds.

(** [String(i)] for a non-negative integer. *)
Definition of_index (i : N) : string := pretty i.

(** A property name that is an array index: the canonical decimal notation
    of an integer below 2^32 - 1. *)
Definition array_index (key : string) : option N :=
  let ds := String.list_ascii_of_string key in
  match ds with
  | [] => None
  | _ =>
      if forallb is_digit ds then
        let n := parse_digits ds in
        if (String.eqb (of_index n) key && (n <? 4294967295)%N)%bool
        then Some n else None
      else None
  end.

(** The longest prefix of [l] whose elements satisfy [p], and the rest. *)
Fixpoint span {A} (p : A -> bool) (l : list A) : list A * list A :=
  match l with
  | [] => ([], [])
  | x :: r => if p x then (x :: fst (span p r), snd (span p r)) else ([], l)
  end.

(** A line feed or a carriage return. *)
Definition line_terminator (c : ascii) : bool :=
  let n := nat_of_ascii c in ((n =? 10)%nat || (n =? 13)%nat)%bool.

(** The three bytes of the separators U+2028 and U+2029. *)
Definition is_separator (a b c : ascii) : bool :=
  ((nat_of_ascii a =? 226)%nat && (nat_of_ascii b =? 128)%nat
   && ((nat_of_ascii c =? 168)%nat || (nat_of_ascii c =? 169)%nat))%bool.

(** Some character is one [.] of a regular expression does not match: a
    line feed, a carriage return, U+2028 or U+2029. *)
Fixpoint has_line_terminator (s : list ascii) : bool :=
  match s with
  | [] => false
  | a :: r =>
      (line_terminator a
       || match r with
          | b :: c :: _ => is_separator a b c
          | _ => false
          end
       || has_line_terminator r)%bool
  end.

(** The comparator-driven, stable [Array.prototype.sort]. *)
Fixpoint sort_insert {A} (cmp : A -> A -> Z) (x : A) (l : list A) : list A :=
  match l with
  | [] => [x]
  | y :: r => if cmp x y <=? 0 then x :: y :: r else y :: sort_insert cmp x r
  end.

Definition sort {A} (cmp : A -> A -> Z) (l : list A) : list A :=
  foldr (sort_insert cmp) [] l.

(** [l.slice(start)]: a negative [start] counts from the end. *)
Definition slice {A} (start : Z) (l : list A) : list A :=
  let len := Z.of_nat (length l) in
  let k := if start <? 0 then Z.max (len + start) 0 else Z.min start len in
  drop (Z.to_nat k) l.

(** [l.filter(f)] for a callback that may throw. *)
Fixpoint filterM {A} (f : A -> Exn bool) (l : list A) : Exn (list A) :=
  match l with
  | [] => ret []
  | x :: r =>
      bind (f x) (fun keep =>
      bind (filterM f r) (fun r' => ret (if keep then x :: r' else r')))
  end.

(** [l.includes(x)] on strings. *)
Definition includes (l : list string) (x : string) : bool :=
  bool_decide (x ∈ l).

End Js.

Notation "'let!' x ':=' m 'in' k" := (Js.bind m (fun x => k))
  (at level 10, x name, m at level 100, k at level 200).

(** ** Data model (types/index.ts) *)

(** A JavaScript value as [JSON.parse] builds it, with [undefined] for a
    property that is not there.  A number is held as the text [String(n)]
    gives for it; an object keeps its own properties in the order
    [JSON.stringify] follows. *)
#[warnings="-register-all"]
Inductive Json : Type :=
  | JUndefined
  | JNull
  | JBool (b : bool)
  | JNum (literal : string)
  | JStr (s : string)
  | JArr (elems : list Json)
  | JObj (props : list (string * Json)).

(** [string | ArrayBuffer] *)
Inductive Body : Type :=
  | BString (s : string)
  | BBuffer (bytes : string).

Inductive HeaderOp : Type := OpSet | OpRemove | OpAppend.

Record HeaderOperation : Type := {
  operation : HeaderOp;
  header : string;
  value : option string
  }.

Record HeaderModification : Type := {
  requestHeaders : option (list HeaderOperation);
  responseHeaders : option (list HeaderOperation)
  }.

Record URLRedirection : Type := {
  destination : string;
  regexSubstitution : option string
  }.

Inductive BodyTarget : Type := TargetRequest | TargetResponse.
Inductive ContentType : Type := CtJson | CtText | CtBinary.

Inductive Modification : Type :=
  | JSONPathModification (path : string) (v : Json)
  | FullReplacement (content : Body).

Record BodyModification : Type := {
  target : BodyTarget;
  contentType : ContentType;
  modification : Modification
  }.

Record ResponseOverride : Type := {
  statusCode : Z;
  mock_headers : gmap string string;
  mock_body : string
  }.

Inductive RuleAction : Type :=
  | ModifyHeaders (a : HeaderModification)
  | Redirect (a : URLRedirection)
  | ModifyBody (a : BodyModification)
  | MockResponse (a : ResponseOverride).

(** [urlPattern: string | RegExp], over the host's type of compiled
    regular expressions. *)
Inductive UrlPattern (RegExp : Type) : Type :=
  | PString (s : string)
  | PRegExp (re : RegExp).
Arguments PString {RegExp} s.
Arguments PRegExp {RegExp} re.

Record Rule (RegExp : Type) : Type := {
  id : string;
  name : string;
  enabled : bool;
  priority : Z;
  urlPattern : UrlPattern RegExp;
  action : RuleAction;
  createdAt : Z;
  modifiedAt : Z
  }.
Arguments id {RegExp} r.
Arguments name {RegExp} r.
Arguments enabled {RegExp} r.
Arguments priority {RegExp} r.
Arguments urlPattern {RegExp} r.
Arguments action {RegExp} r.
Arguments createdAt {RegExp} r.
Arguments modifiedAt {RegExp} r.

Record LogEntry : Type := {
  entry_id : string;
  entry_timestamp : Z;
  entry_url : string;
  entry_method : string;
  entry_statusCode : option Z;
  entry_requestHeaders : gmap string string;
  entry_responseHeaders : option (gmap string string);
  entry_appliedRules : list string;
  entry_modifications : list string
  }.

Record LogFilter : Type := {
  filter_urlPattern : option string;
  filter_method : option string;
  filter_statusCode : option Z;
  filter_hasModifications : option bool;
  (** [{ start, end }] *)
  filter_dateRange : option (Z * Z)
  }.

(** ** The platform *)

(** The kinds of value [JSON.parse] builds that have properties. *)
Inductive Kind : Type := KObject | KArray | KString | KNumber | KBoolean.

Record Host : Type := {
  RegExp : Type;
  (** [new RegExp(source)]; throws a SyntaxError on a malformed source. *)
  new_RegExp : string -> Js.Exn RegExp;
  (** [re.test(s)] *)
  RegExp_test : RegExp -> string -> bool;
  (** [s.replace(re, substitution)] *)
  String_replace : string -> RegExp -> string -> string;
  (** [new URL(s)], called for validation only: [Some msg] when it throws. *)
  new_URL : string -> option string;
  (** [JSON.parse(s)]; throws a SyntaxError on malformed text. *)
  JSON_parse : string -> Js.Exn Json;
  (** [JSON.stringify(v)] *)
  JSON_stringify : Json -> string;
  (** [new TextDecoder().decode(buffer)] *)
  TextDecoder_decode : string -> string;
  (** The objects of the platform that are no data: the built-in
      prototypes and the functions they hold. *)
  Builtin : Type;
  (** [v[name]] for a value [v] of the given kind that has no own property
      [name]: what the prototype chain of [v] holds under that name, if
      anything ([({}).constructor], [[].map], [''.__proto__]).  These are
      writable data properties, the accessor [__proto__] apart, as the
      language has them. *)
  inherited : Kind -> string -> option Builtin;
  (** [b[name]] on a built-in object: a primitive value or [undefined], or
      one more built-in object. *)
  Builtin_get : Builtin -> string -> Js.Exn (Json + Builtin);
  (** [b[name] = x] on a built-in object, in strict mode: [Some msg] when
      it throws. *)
  Builtin_set : Builtin -> string -> Json -> option string;
  (** [String(b)], which is also [`${b}`]. *)
  Builtin_toString : Builtin -> string;
  (** [String(parseInt(digits))] for a run of digits whose value is 2^53 or
      more, where [parseInt] rounds to a double. *)
  large_index : string -> string
  }.

(** The time zone of the platform, as [Date.prototype.setDate] and
    [getDate] use it. *)
Record TimeZone : Type := {
  (** [LocalTime(t)]: the local time value of the time value [t]. *)
  LocalTime : Z -> Z;
  (** [UTC(t)]: the time value of the local time value [t]. *)
  UTC : Z -> Z
  }.

(** What the conversion to declarativeNetRequest rules asks of the platform
    besides. *)
Record Browser (H : Host) : Type := {
  (** [re.source] *)
  RegExp_source : RegExp H -> string;
  (** [parseInt(s)]: [None] for [NaN]. *)
  parseInt : string -> option Z;
  (** [Math.floor(Math.random() * 1000000)], by the number of earlier draws. *)
  random : nat -> Z
}.
Arguments RegExp_source {H} b re.
Arguments parseInt {H} b s.
Arguments random {H} b n.

(** ** chrome.declarativeNetRequest

    A [ModifyHeaderInfo] has the fields of a [HeaderOperation]. *)

Module Chrome.

Inductive ResourceType : Type := MAIN_FRAME.

Inductive Action : Type :=
| MODIFY_HEADERS (requestHeaders responseHeaders : list HeaderOperation)
| REDIRECT (url : string).

Record DeclarativeRule : Type := {
  rule_id : Z;
  rule_priority : Z;
  rule_action : Action;
  urlFilter : string;
  resourceTypes : list ResourceType
}.

End Chrome.

(** ** Property access on parsed JSON

    [v[key]] and [v[key] = x] as the body of a class (strict mode) runs
    them. *)

Module JsObject.


Definition typeof_name (v : Json) : string :=
  match v with
  | JUndefined => "undefined"
  | JNull => "null"
  | JBool _ => "boolean"
  | JNum _ => "number"
  | JStr _ => "string"
  | JArr _ | JObj _ => "object"
  end.

Fixpoint assoc (key : string) (props : list (string * Json)) : option Json :=
  match props with
  | [] => None
  | (k, v) :: r => if String.eqb k key then Some v else assoc key r
  end.

Definition or_undefined (o : option Json) : Json :=
  match o with Some v => v | None => JUndefined end.

(** The kind of a value that has properties; [undefined] and [null] have
    none. *)
Definition kind_of (v : Json) : option Kind :=
  match v with
  | JUndefined | JNull => None
  | JBool _ => Some KBoolean
  | JNum _ => Some KNumber
  | JStr _ => Some KString
  | JArr _ => Some KArray
  | JObj _ => Some KObject
  end.

(** The own property [key] of [v], if it has one: a code unit or the length
    of a string, an element or the length of an array, a member of an
    object. *)
Definition own (v : Json) (key : string) : option Json :=
  match v with
  | JStr s =>
      match Js.array_index key with
      | Some i => JStr <$> Js.utf16 s !! N.to_nat i
      | None =>
          if String.eqb key "length"
          then Some (JNum (Js.of_int (Z.of_nat (length (Js.utf16 s)))))
          else None
      end
  | JArr elems =>
      match Js.array_index key with
      | Some i => elems !! N.to_nat i
      | None =>
          if String.eqb key "length"
          then Some (JNum (Js.of_int (Z.of_nat (length elems))))
          else None
      end
  | JObj props => assoc key props
  | _ => None
  end.

Section WithHost.

Context (H : Host).

(** [v[key]]: a TypeError on [undefined] and [null]; the own property; or
    else what the prototype chain holds, a built-in object; or else
    [undefined]. *)
Definition get (v : Json) (key : string) : Js.Exn (Json + Builtin H) :=
  match kind_of v with
  | None =>
      Js.throw ("Cannot read properties of " +:+ typeof_name v
                +:+ " (reading '" +:+ key +:+ "')")
  | Some kind =>
      match own v key with
      | Some x => Js.ret (inl x)
      | None =>
          match inherited H kind key with
          | Some b => Js.ret (inr b)
          | None => Js.ret (inl JUndefined)
          end
      end
  end.

End WithHost.

Fixpoint replace_prop (key : string) (x : Json) (props : list (string * Json))
  : list (string * Json) :=
  match props with
  | [] => []
  | (k, v) :: r =>
      if String.eqb k key then (k, x) :: r else (k, v) :: replace_prop key x r
  end.

(** A new own property: index-like names are kept first, in ascending
    order, the other names follow in insertion order. *)
Fixpoint add_prop (key : string) (x : Json) (props : list (string * Json))
  : list (string * Json) :=
  match props with
  | [] => [(key, x)]
  | (k, v) :: r =>
      match Js.array_index key, Js.array_index k with
      | Some i, Some j =>
          if (i <? j)%N then (key, x) :: (k, v) :: r else (k, v) :: add_prop key x r
      | Some _, None => (key, x) :: (k, v) :: r
      | None, _ => (k, v) :: add_prop key x r
      end
  end.

(** [elems[i] = x]: past the end the array grows, the holes read as
    [undefined]. *)
Definition store_elem (i : nat) (x : Json) (elems : list Json) : list Json :=
  if (i <? length elems)%nat then <[i := x]> elems
  else (elems ++ replicate (i - length elems) JUndefined ++ [x])%list.

(** The array length a value stands for, if any: an integer below 2^32
    after [ToNumber] (taken on numbers, booleans, [null] and strings of
    digits). *)
Definition to_array_length (x : Json) : option N :=
  match x with
  | JNull | JBool false => Some 0%N
  | JBool true => Some 1%N
  | JNum literal | JStr literal =>
      let ds := String.list_ascii_of_string literal in
      let n := Js.parse_digits ds in
      if (forallb Js.is_digit ds && (n <? 4294967296)%N)%bool then Some n else None
  | _ => None
  end.

(** [elems.length = x]: a RangeError unless [x] is an array length. *)
Definition store_length (x : Json) (elems : list Json) : Js.Exn (list Json) :=
  match to_array_length x with
  | Some n =>
      Js.ret (take (N.to_nat n) elems
              ++ replicate (N.to_nat n - length elems) JUndefined)%list
  | None => Js.throw "Invalid array length"
  end.

Definition show_primitive (v : Json) : string :=
  match v with
  | JBool true => "true"
  | JBool false => "false"
  | JNum literal => literal
  | JStr s => s
  | _ => typeof_name v
  end.

(** [v[key] = x]: the container after the assignment.  A TypeError on
    [undefined] and [null].  Without an own property of that name,
    [__proto__] is the setter of [Object.prototype]: it stores nothing, and
    what it does to the prototype of [v] no property of [v] shows.  Any
    other name is a TypeError on a primitive, in strict mode; on an array,
    a name that is no index leaves the elements as they are; on an object
    it becomes an own property. *)
Definition set (v : Json) (key : string) (x : Json) : Js.Exn Json :=
  match v with
  | JUndefined | JNull =>
      Js.throw ("Cannot set properties of " +:+ typeof_name v
                +:+ " (setting '" +:+ key +:+ "')")
  | JBool _ | JNum _ | JStr _ =>
      match own v key with
      | Some _ =>
          Js.throw ("Cannot assign to read only property '" +:+ key +:+ "' of "
                    +:+ typeof_name v +:+ " '" +:+ show_primitive v +:+ "'")
      | None =>
          if String.eqb key "__proto__" then Js.ret v
          else
            Js.throw ("Cannot create property '" +:+ key +:+ "' on "
                      +:+ typeof_name v +:+ " '" +:+ show_primitive v +:+ "'")
      end
  | JArr elems =>
      match Js.array_index key with
      | Some i => Js.ret (JArr (store_elem (N.to_nat i) x elems))
      | None =>
          if String.eqb key "length"
          then let! elems' := store_length x elems in Js.ret (JArr elems')
          else Js.ret (JArr elems)
      end
  | JObj props =>
      match assoc key props with
      | Some _ => Js.ret (JObj (replace_prop key x props))
      | None =>
          if String.eqb key "__proto__" then Js.ret (JObj props)
          else Js.ret (JObj (add_prop key x props))
      end
  end.

(** The container [v] seen again after the object it holds under [key]
    was changed in place into [x]. *)
Definition put (v : Json) (key : string) (x : Json) : Json :=
  match v with
  | JArr elems =>
      match Js.array_index key with
      | Some i => JArr (<[N.to_nat i := x]> elems)
      | None => v
      end
  | JObj props => JObj (replace_prop key x props)
  | _ => v
  end.

End JsObject.

(** ** RuleEngine (rules/RuleEngine.ts) *)

Module RuleEngine.

Record RequestInfo : Type := {
  url : string;
  method : string;
  headers : gmap string string;
  body : option Body
  }.

Record ModifiedRequest : Type := {
  m_url : string;
  m_method : string;
  m_headers : gmap string string;
  m_body : option Body;
  modifications : list string
  }.

Definition with_url (u : string) (m : ModifiedRequest) : ModifiedRequest :=
  {| m_url := u; m_method := m_method m; m_headers := m_headers m;
     m_body := m_body m; modifications := modifications m |}.

Definition with_headers (h : gmap string string) (m : ModifiedRequest)
  : ModifiedRequest :=
  {| m_url := m_url m; m_method := m_method m; m_headers := h;
     m_body := m_body m; modifications := modifications m |}.

Definition with_body (b : option Body) (m : ModifiedRequest) : ModifiedRequest :=
  {| m_url := m_url m; m_method := m_method m; m_headers := m_headers m;
     m_body := b; modifications := modifications m |}.

(** [modified.modifications.push(entry)] *)
Definition push (entry : string) (m : ModifiedRequest) : ModifiedRequest :=
  {| m_url := m_url m; m_method := m_method m; m_headers := m_headers m;
     m_body := m_body m; modifications := modifications m ++ [entry] |}.

(** Security-sensitive headers that cannot be modified by extensions. *)
Definition SECURITY_RESTRICTED_HEADERS : list string :=
  [ "host"; "connection"; "content-length"; "cookie"; "cookie2";
    "set-cookie"; "set-cookie2"; "origin"; "referer"; "user-agent";
    "proxy-authorization"; "proxy-connection"; "te"; "trailer";
    "transfer-encoding"; "upgrade"; "via" ].

(** [SECURITY_RESTRICTED_HEADERS.has(op.header.toLowerCase())] *)
Definition restricted (op : HeaderOperation) : bool :=
  bool_decide (Js.toLowerCase (header op) ∈ SECURITY_RESTRICTED_HEADERS).

Section WithHost.

Context (H : Host).

(** [headers[name]] on the plain object [headers]: the own property, or
    else what a plain object inherits, which is no string. *)
Definition header_get (headers : gmap string string) (name : string)
  : option (string + Builtin H) :=
  match headers !! name with
  | Some s => Some (inl s)
  | None => inr <$> inherited H KObject name
  end.

(** [headers[name] = s]: without an own property of that name,
    [__proto__] is the setter of [Object.prototype], which does nothing
    with a string. *)
Definition header_set (name s : string) (headers : gmap string string)
  : gmap string string :=
  match headers !! name with
  | Some _ => <[name := s]> headers
  | None => if String.eqb name "__proto__" then headers else <[name := s]> headers
  end.

(** One turn of the loop of [applyHeaderModifications]. *)
Definition applyHeaderOperation (modified : ModifiedRequest) (op : HeaderOperation)
  : ModifiedRequest :=
  if restricted op then
    push ("Skipped restricted header: " +:+ header op) modified
  else
    match operation op with
    | OpSet =>
        push ("Set header: " +:+ header op +:+ " = " +:+ Js.template (value op))
          (with_headers
             (header_set (header op) (Js.or_empty (value op)) (m_headers modified))
             modified)
    | OpRemove =>
        push ("Removed header: " +:+ header op)
          (with_headers (delete (header op) (m_headers modified)) modified)
    | OpAppend =>
        let appended :=
          match header_get (m_headers modified) (header op) with
          | Some (inl current) =>
              if Js.truthy current
              then current +:+ ", " +:+ Js.template (value op)
              else Js.or_empty (value op)
          | Some (inr b) => Builtin_toString H b +:+ ", " +:+ Js.template (value op)
          | None => Js.or_empty (value op)
          end in
        push ("Appended header: " +:+ header op +:+ " += " +:+ Js.template (value op))
          (with_headers (header_set (header op) appended (m_headers modified))
             modified)
    end.

(** [applyHeaderModifications(action, modified)]: only
    [action.requestHeaders || []] is read. *)
Definition applyHeaderModifications (action : HeaderModification)
    (modified : ModifiedRequest) : ModifiedRequest :=
  let operations := default [] (requestHeaders action) in
  foldl applyHeaderOperation modified operations.

(** The characters of the class [[.+?^${}()|[\]\\]]. *)
Definition regex_special (c : ascii) : bool :=
  bool_decide (c ∈ String.list_ascii_of_string ".+?^${}()|[]\").

(** [.replace(/[.+?^${}()|[\]\\]/g, '\\$&')] *)
Definition escapeSpecial (pattern : string) : string :=
  Js.replace_each
    (fun c => if regex_special c then String "\" (String c EmptyString)
              else String c EmptyString)
    pattern.

(** [.replace(/\*/g, '.*')] *)
Definition expandStar (pattern : string) : string :=
  Js.replace_each
    (fun c => if Ascii.eqb c "*" then ".*" else String c EmptyString)
    pattern.

(** The source of the regular expression a wildcard pattern is matched
    with: [`^${regexPattern}$`]. *)
Definition wildcardSource (pattern : string) : string :=
  "^" +:+ expandStar (escapeSpecial pattern) +:+ "$".

(** [part.match(/^(.+)\[(\d+)\]$/)]: the key and the digits of a part
    such as [items[0]].  The digits are the last run before the closing
    bracket; the key before them is not empty and holds no line
    terminator. *)
Definition arrayMatch (part : string) : option (string * string) :=
  match rev (String.list_ascii_of_string part) with
  | close :: r =>
      let digits := fst (Js.span Js.is_digit r) in
      match snd (Js.span Js.is_digit r) with
      | open :: key =>
          if (Ascii.eqb close "]" && Ascii.eqb open "["
              && (0 <? length digits)%nat && (0 <? length key)%nat
              && negb (Js.has_line_terminator (rev key)))%bool
          then Some (String.string_of_list_ascii (rev key),
                     String.string_of_list_ascii (rev digits))
          else None
      | [] => None
      end
  | [] => None
  end.

(** [parseInt(index)] on a run of digits, as a property name: [String] of
    the number read, which is the number of the digits below 2^53. *)
Definition parseInt_key (index : string) : string :=
  let n := Js.parse_digits (String.list_ascii_of_string index) in
  if (n <? 9007199254740992)%N then Js.of_index n else large_index H index.

(** [current[key]], in the document or on a built-in object. *)
Definition read (current : Json + Builtin H) (key : string)
  : Js.Exn (Json + Builtin H) :=
  match current with
  | inl v => JsObject.get H v key
  | inr b => Builtin_get H b key
  end.

(** [current[key] = x] off the document, where only whether it throws
    matters. *)
Definition assign (current : Json + Builtin H) (key : string) (x : Json)
  : Js.Exn unit :=
  match current with
  | inl v => let! _ := JsObject.set v key x in Js.ret tt
  | inr b =>
      match Builtin_set H b key x with
      | Some message => Js.throw message
      | None => Js.ret tt
      end
  end.

(** One turn of the loop of [applyJSONPath]:
    [current[key][parseInt(index)]] or [current[part]]. *)
Definition step (current : Json + Builtin H) (part : string)
  : Js.Exn (Json + Builtin H) :=
  match arrayMatch part with
  | Some (key, index) =>
      let! inner := read current key in read inner (parseInt_key index)
  | None => read current part
  end.

(** The rest of [applyJSONPath] once the walk has reached a built-in
    object: the loop and the last assignment, none of which touches the
    document. *)
Fixpoint detached (current : Json + Builtin H) (parts : list string)
    (lastPart : string) (v : Json) : Js.Exn unit :=
  match parts with
  | [] =>
      match arrayMatch lastPart with
      | Some (key, index) =>
          let! inner := read current key in assign inner (parseInt_key index) v
      | None => assign current lastPart v
      end
  | part :: rest =>
      let! next := step current part in detached next rest lastPart v
  end.

(** The last assignment of [applyJSONPath], on the object reached. *)
Definition writeLast (current : Json) (lastPart : string) (v : Json)
  : Js.Exn Json :=
  match arrayMatch lastPart with
  | Some (key, index) =>
      let! inner := JsObject.get H current key in
      match inner with
      | inl inner =>
          let! inner' := JsObject.set inner (parseInt_key index) v in
          Js.ret (JsObject.put current key inner')
      | inr b =>
          let! _ := assign (inr b) (parseInt_key index) v in Js.ret current
      end
  | None => JsObject.set current lastPart v
  end.

(** The loop of [applyJSONPath] followed by its last assignment.  The
    source walks down with [current = current[part]] and assigns in place;
    here every object on the way is rebuilt around the changed one.  Where
    the walk reaches a built-in object the document stays as it is. *)
Fixpoint writePath (current : Json) (parts : list string) (lastPart : string)
    (v : Json) : Js.Exn Json :=
  match parts with
  | [] => writeLast current lastPart v
  | part :: rest =>
      match arrayMatch part with
      | Some (key, index) =>
          let! inner := JsObject.get H current key in
          match inner with
          | inl inner =>
              let! next := JsObject.get H inner (parseInt_key index) in
              match next with
              | inl next =>
                  let! next' := writePath next rest lastPart v in
                  Js.ret (JsObject.put current key
                            (JsObject.put inner (parseInt_key index) next'))
              | inr b =>
                  let! _ := detached (inr b) rest lastPart v in Js.ret current
              end
          | inr b =>
              let! next := Builtin_get H b (parseInt_key index) in
              let! _ := detached next rest lastPart v in Js.ret current
          end
      | None =>
          let! next := JsObject.get H current part in
          match next with
          | inl next =>
              let! next' := writePath next rest lastPart v in
              Js.ret (JsObject.put current part next')
          | inr b =>
              let! _ := detached (inr b) rest lastPart v in Js.ret current
          end
      end
  end.

(** [applyJSONPath(obj, path, value)] *)
Definition applyJSONPath (obj : Json) (path : string) (v : Json) : Js.Exn Json :=
  match Js.pop (Js.split "." path) with
  | Some (parts, lastPart) => writePath obj parts lastPart v
  | None => Js.ret obj
  end.

(** [!modified.body]: no body, or an empty string. *)
Definition no_body (b : option Body) : bool :=
  match b with
  | None => true
  | Some (BString s) => negb (Js.truthy s)
  | Some (BBuffer _) => false
  end.

(** [headers['Content-Length'] = String(n)] *)
Definition setContentLength (n : Z) (m : ModifiedRequest) : ModifiedRequest :=
  with_headers (<["Content-Length" := Js.of_int n]> (m_headers m)) m.

(** [new TextEncoder().encode(content as string).length]: a buffer passed
    for a string is encoded as [String(buffer)]. *)
Definition encoded_length (content : Body) : Z :=
  match content with
  | BString s => Js.utf8_length s
  | BBuffer _ => Js.utf8_length "[object ArrayBuffer]"
  end.

Definition modifyTextBody (action : BodyModification) (modified : ModifiedRequest)
  : ModifiedRequest :=
  match modification action with
  | FullReplacement content =>
      push "Replaced text body"
        (setContentLength (encoded_length content)
           (with_body (Some content) modified))
  | JSONPathModification _ _ => modified
  end.

Definition modifyBinaryBody (action : BodyModification) (modified : ModifiedRequest)
  : ModifiedRequest :=
  match modification action with
  | FullReplacement content =>
      let length :=
        match content with
        | BBuffer bytes => Js.utf8_length bytes
        | BString s => Js.utf8_length s
        end in
      push "Replaced binary body"
        (setContentLength length (with_body (Some content) modified))
  | JSONPathModification _ _ => modified
  end.

(** [matchesURLPattern(pattern, url)] *)
Definition matchesURLPattern (pattern : UrlPattern (RegExp H)) (u : string)
  : Js.Exn bool :=
  match pattern with
  | PRegExp re => Js.ret (RegExp_test H re u)
  | PString p =>
      let! regex := new_RegExp H (wildcardSource p) in
      Js.ret (RegExp_test H regex u)
  end.

(** [evaluateRule(rule, request)] *)
Definition evaluateRule (rule : Rule (RegExp H)) (request : RequestInfo)
  : Js.Exn bool :=
  if negb (enabled rule) then Js.ret false
  else matchesURLPattern (urlPattern rule) (url request).

(** [sortByPriority(rules)] *)
Definition sortByPriority (rules : list (Rule (RegExp H)))
  : list (Rule (RegExp H)) :=
  Js.sort (fun a b => priority b - priority a) rules.

(** The [try] block of [applyURLRedirection]: the new URL, or the
    message of what was thrown. *)
Definition redirectedURL (action : URLRedirection) (originalRequest : RequestInfo)
  : Js.Exn string :=
  let! newURL :=
    (if Js.truthy_opt (regexSubstitution action) then
       let! regex := new_RegExp H (destination action) in
       Js.ret (String_replace H (url originalRequest) regex
                 (Js.or_empty (regexSubstitution action)))
     else Js.ret (destination action)) in
  match new_URL H newURL with
  | Some message => Js.throw message
  | None => Js.ret newURL
  end.

(** [applyURLRedirection(action, modified, originalRequest)] *)
Definition applyURLRedirection (action : URLRedirection)
    (modified : ModifiedRequest) (originalRequest : RequestInfo)
  : ModifiedRequest :=
  match redirectedURL action originalRequest with
  | inl newURL => push ("Redirected to: " +:+ newURL) (with_url newURL modified)
  | inr message =>
      push ("Error: Invalid URL redirection - " +:+ message) modified
  end.

(** [typeof body === 'string' ? body : new TextDecoder().decode(body)] *)
Definition bodyStr (b : option Body) : string :=
  match b with
  | Some (BString s) => s
  | Some (BBuffer bytes) => TextDecoder_decode H bytes
  | None => TextDecoder_decode H ""
  end.

(** [modifyJSONBody(action, modified)].  Everything that can throw runs
    before the first assignment to [modified]. *)
Definition modifyJSONBody (action : BodyModification) (modified : ModifiedRequest)
  : Js.Exn ModifiedRequest :=
  let! jsonData := JSON_parse H (bodyStr (m_body modified)) in
  let! changed :=
    match modification action with
    | JSONPathModification path v =>
        let! jsonData' := applyJSONPath jsonData path v in
        Js.ret (jsonData', push ("Modified JSON path: " +:+ path) modified)
    | FullReplacement (BString content) =>
        let! jsonData' := JSON_parse H content in
        Js.ret (jsonData', push "Replaced entire JSON body" modified)
    | FullReplacement (BBuffer _) =>
        Js.ret (JObj [], push "Replaced entire JSON body" modified)
    end in
  let newBody := JSON_stringify H (fst changed) in
  Js.ret (setContentLength (Js.utf8_length newBody)
            (with_body (Some (BString newBody)) (snd changed))).

(** [applyBodyModification(action, modified)] *)
Definition applyBodyModification (action : BodyModification)
    (modified : ModifiedRequest) : ModifiedRequest :=
  if no_body (m_body modified) then push "No body to modify" modified
  else
    match
      match contentType action with
      | CtJson => modifyJSONBody action modified
      | CtText => Js.ret (modifyTextBody action modified)
      | CtBinary => Js.ret (modifyBinaryBody action modified)
      end
    with
    | inl modified' => modified'
    | inr message => push ("Error modifying body: " +:+ message) modified
    end.

(** [applyRule(rule, request)] *)
Definition applyRule (rule : Rule (RegExp H)) (request : RequestInfo)
  : ModifiedRequest :=
  let modified :=
    {| m_url := url request; m_method := method request;
       m_headers := headers request; m_body := body request;
       modifications := [] |} in
  match action rule with
  | ModifyHeaders a => applyHeaderModifications a modified
  | Redirect a => applyURLRedirection a modified request
  | ModifyBody a => applyBodyModification a modified
  | MockResponse a =>
      push ("Mock response: " +:+ Js.of_int (statusCode a)) modified
  end.

End WithHost.

Section Declarative.

Context {H : Host} (B : Browser H).

(** [parseInt(rule.id) || Math.floor(Math.random() * 1000000)], after
    [draws] draws: the id and the number of draws made. *)
Definition declarativeId (rule : Rule (RegExp H)) (draws : nat) : Z * nat :=
  match parseInt B (id rule) with
  | Some n => if n =? 0 then (random B draws, S draws) else (n, draws)
  | None => (random B draws, S draws)
  end.

(** [typeof rule.urlPattern === 'string' ? rule.urlPattern
      : rule.urlPattern.source] *)
Definition declarativeFilter (rule : Rule (RegExp H)) : string :=
  match urlPattern rule with
  | PString pattern => pattern
  | PRegExp re => RegExp_source B re
  end.

(** [convertHeaderRule(rule)] for a rule whose action is [a]. *)
Definition convertHeaderRule (rule : Rule (RegExp H)) (a : HeaderModification)
    (draws : nat) : Chrome.DeclarativeRule :=
  {| Chrome.rule_id := fst (declarativeId rule draws);
     Chrome.rule_priority := priority rule;
     Chrome.rule_action :=
       Chrome.MODIFY_HEADERS (default [] (requestHeaders a))
         (default [] (responseHeaders a));
     Chrome.urlFilter := declarativeFilter rule;
     Chrome.resourceTypes := [Chrome.MAIN_FRAME] |}.

(** [convertRedirectRule(rule)] for a rule whose action is [a]. *)
Definition convertRedirectRule (rule : Rule (RegExp H)) (a : URLRedirection)
    (draws : nat) : Chrome.DeclarativeRule :=
  {| Chrome.rule_id := fst (declarativeId rule draws);
     Chrome.rule_priority := priority rule;
     Chrome.rule_action := Chrome.REDIRECT (destination a);
     Chrome.urlFilter := declarativeFilter rule;
     Chrome.resourceTypes := [Chrome.MAIN_FRAME] |}.

(** The loop of [convertToDeclarativeRules], [draws] draws having been made. *)
Fixpoint convertFrom (draws : nat) (rules : list (Rule (RegExp H)))
  : list Chrome.DeclarativeRule :=
  match rules with
  | [] => []
  | rule :: rest =>
      if negb (enabled rule) then convertFrom draws rest
      else
        match action rule with
        | ModifyHeaders a =>
            convertHeaderRule rule a draws
            :: convertFrom (snd (declarativeId rule draws)) rest
        | Redirect a =>
            convertRedirectRule rule a draws
            :: convertFrom (snd (declarativeId rule draws)) rest
        | ModifyBody _ | MockResponse _ => convertFrom draws rest
        end
  end.

(** [convertToDeclarativeRules(rules)] *)
Definition convertToDeclarativeRules (rules : list (Rule (RegExp H)))
  : list Chrome.DeclarativeRule :=
  convertFrom 0 rules.

End Declarative.

End RuleEngine.

(** ** Logger (logger/Logger.ts) *)

Module Logger.

Record RequestInfo : Type := {
  url : string;
  method : string;
  headers : gmap string string;
  timestamp : Z
  }.

Record ResponseInfo : Type := {
  res_statusCode : Z;
  res_headers : gmap string string
  }.

Definition SENSITIVE_HEADERS : list string :=
  [ "authorization"; "cookie"; "set-cookie"; "proxy-authorization";
    "www-authenticate"; "x-api-key"; "api-key" ].

(** The fields of a [Logger] object. *)
Record State : Type := {
  logs : list LogEntry;
  logIdCounter : Z
  }.

Definition empty : State := {| logs := []; logIdCounter := 0 |}.

(** [generateLogId()], with [now] the value of [Date.now()]: the id, and
    the counter after [logIdCounter++]. *)
Definition generateLogId (now : Z) (st : State) : string * Z :=
  ("log-" +:+ Js.of_int now +:+ "-" +:+ Js.of_int (logIdCounter st),
   logIdCounter st + 1).

(** [filterSensitiveData(url, headers)].  The loop copies the entries of
    [headers] into the plain object [filtered] by assignment; for the name
    [__proto__] the assignment is the setter of [Object.prototype], which
    stores nothing, so that entry is not copied. *)
Definition filterSensitiveData (u : string) (hs : gmap string string)
  : gmap string string :=
  let isHTTPS := Js.startsWith u "https://" in
  if negb isHTTPS then hs
  else
    delete "__proto__"
      (map_imap
         (fun key v =>
            let lowerKey := Js.toLowerCase key in
            Some (if Js.includes SENSITIVE_HEADERS lowerKey then "[FILTERED]" else v))
         hs).

Definition target_name (t : BodyTarget) : string :=
  match t with TargetRequest => "request" | TargetResponse => "response" end.

(** What one turn of the loop of [extractModifications] pushes. *)
Definition describeRule {RegExp} (rule : Rule RegExp) : list string :=
  match action rule with
  | ModifyHeaders a =>
      ((match requestHeaders a with
        | Some _ => ["Modified request headers (" +:+ name rule +:+ ")"]
        | None => []
        end)
       ++
       (match responseHeaders a with
        | Some _ => ["Modified response headers (" +:+ name rule +:+ ")"]
        | None => []
        end))%list
  | Redirect a =>
      ["Redirected to " +:+ destination a +:+ " (" +:+ name rule +:+ ")"]
  | ModifyBody a =>
      ["Modified " +:+ target_name (target a) +:+ " body (" +:+ name rule +:+ ")"]
  | MockResponse a =>
      ["Mocked response with status " +:+ Js.of_int (statusCode a)
       +:+ " (" +:+ name rule +:+ ")"]
  end.

(** [extractModifications(rules)] *)
Definition extractModifications {RegExp} (rules : list (Rule RegExp))
  : list string :=
  foldl (fun mods rule => (mods ++ describeRule rule)%list) [] rules.

(** [logRequest(request, appliedRules)] *)
Definition logRequest {RegExp} (now : Z) (request : RequestInfo)
    (appliedRules : list (Rule RegExp)) (st : State) : State :=
  let logEntry :=
    {| entry_id := fst (generateLogId now st);
       entry_timestamp := timestamp request;
       entry_url := url request;
       entry_method := method request;
       entry_statusCode := None;
       entry_requestHeaders := filterSensitiveData (url request) (headers request);
       entry_responseHeaders := None;
       entry_appliedRules := map id appliedRules;
       entry_modifications := extractModifications appliedRules |} in
  {| logs := (logs st ++ [logEntry])%list;
     logIdCounter := snd (generateLogId now st) |}.

(** [!log.statusCode]: no status yet, or the status 0. *)
Definition no_status (o : option Z) : bool :=
  match o with Some c => c =? 0 | None => true end.

(** The test [logResponse] looks an open entry up with. *)
Definition awaits (request : RequestInfo) (log : LogEntry) : bool :=
  (String.eqb (entry_url log) (url request)
   && String.eqb (entry_method log) (method request)
   && no_status (entry_statusCode log)
   && (Z.abs (entry_timestamp log - timestamp request) <? 5000))%bool.

(** The changes [logResponse] makes to the entry it found. *)
Definition mergeResponse {RegExp} (response : ResponseInfo) (request : RequestInfo)
    (appliedRules : list (Rule RegExp)) (existingLog : LogEntry) : LogEntry :=
  let newRuleIds :=
    List.filter (fun i => negb (Js.includes (entry_appliedRules existingLog) i))
      (map id appliedRules) in
  let newModifications :=
    List.filter (fun m => negb (Js.includes (entry_modifications existingLog) m))
      (extractModifications appliedRules) in
  {| entry_id := entry_id existingLog;
     entry_timestamp := entry_timestamp existingLog;
     entry_url := entry_url existingLog;
     entry_method := entry_method existingLog;
     entry_statusCode := Some (res_statusCode response);
     entry_requestHeaders := entry_requestHeaders existingLog;
     entry_responseHeaders :=
       Some (filterSensitiveData (url request) (res_headers response));
     entry_appliedRules := (entry_appliedRules existingLog ++ newRuleIds)%list;
     entry_modifications :=
       (entry_modifications existingLog ++ newModifications)%list |}.

(** [logs.find(p)] followed by an update of the entry found, in place. *)
Fixpoint update_first (p : LogEntry -> bool) (f : LogEntry -> LogEntry)
    (l : list LogEntry) : option (list LogEntry) :=
  match l with
  | [] => None
  | e :: r =>
      if p e then Some (f e :: r)
      else match update_first p f r with
           | Some r' => Some (e :: r')
           | None => None
           end
  end.

(** [logResponse(response, request, appliedRules)] *)
Definition logResponse {RegExp} (now : Z) (response : ResponseInfo)
    (request : RequestInfo) (appliedRules : list (Rule RegExp)) (st : State)
  : State :=
  match update_first (awaits request)
          (mergeResponse response request appliedRules) (logs st) with
  | Some logs' => {| logs := logs'; logIdCounter := logIdCounter st |}
  | None =>
      let logEntry :=
        {| entry_id := fst (generateLogId now st);
           entry_timestamp := timestamp request;
           entry_url := url request;
           entry_method := method request;
           entry_statusCode := Some (res_statusCode response);
           entry_requestHeaders :=
             filterSensitiveData (url request) (headers request);
           entry_responseHeaders :=
             Some (filterSensitiveData (url request) (res_headers response));
           entry_appliedRules := map id appliedRules;
           entry_modifications := extractModifications appliedRules |} in
      {| logs := (logs st ++ [logEntry])%list;
         logIdCounter := snd (generateLogId now st) |}
  end.

(** [(a, b) => a.timestamp.getTime() - b.timestamp.getTime()] *)
Definition chronological (a b : LogEntry) : Z :=
  entry_timestamp a - entry_timestamp b.

Definition has_status (c : Z) (log : LogEntry) : bool :=
  match entry_statusCode log with Some c' => c' =? c | None => false end.

Definition modified_is (b : bool) (log : LogEntry) : bool :=
  if b then (0 <? length (entry_modifications log))%nat
  else (length (entry_modifications log) =? 0)%nat.

Definition within (range : Z * Z) (log : LogEntry) : bool :=
  (fst range <=? entry_timestamp log) && (entry_timestamp log <=? snd range).

Section WithHost.

Context (H : Host).

(** The body of [if (filter) { ... }] in [getLogs]. *)
Definition applyFilter (f : LogFilter) (filteredLogs : list LogEntry)
  : Js.Exn (list LogEntry) :=
  let! byUrl :=
    (if Js.truthy_opt (filter_urlPattern f) then
       let! pattern := new_RegExp H (Js.or_empty (filter_urlPattern f)) in
       Js.ret (List.filter (fun log => RegExp_test H pattern (entry_url log))
                 filteredLogs)
     else Js.ret filteredLogs) in
  let byMethod :=
    if Js.truthy_opt (filter_method f) then
      List.filter
        (fun log => String.eqb (entry_method log) (Js.or_empty (filter_method f)))
        byUrl
    else byUrl in
  let byStatus :=
    match filter_statusCode f with
    | Some c => List.filter (has_status c) byMethod
    | None => byMethod
    end in
  let byModifications :=
    match filter_hasModifications f with
    | Some b => List.filter (modified_is b) byStatus
    | None => byStatus
    end in
  Js.ret (match filter_dateRange f with
          | Some range => List.filter (within range) byModifications
          | None => byModifications
          end).

(** [getLogs(filter?)]: the value the promise resolves with, or the
    message it is rejected with. *)
Definition getLogs (f : option LogFilter) (st : State) : Js.Exn (list LogEntry) :=
  let! filteredLogs :=
    (match f with
     | Some f => applyFilter f (logs st)
     | None => Js.ret (logs st)
     end) in
  Js.ret (Js.sort chronological filteredLogs).

End WithHost.

(** [clearLogs(olderThan?)] *)
Definition clearLogs (olderThan : option Z) (st : State) : State :=
  match olderThan with
  | Some t =>
      {| logs := List.filter (fun log => t <=? entry_timestamp log) (logs st);
         logIdCounter := logIdCounter st |}
  | None => {| logs := []; logIdCounter := logIdCounter st |}
  end.

(** [getAllLogs()] *)
Definition getAllLogs (st : State) : list LogEntry := logs st.

(** [setLogs(logs)] *)
Definition setLogs (l : list LogEntry) (st : State) : State :=
  {| logs := l; logIdCounter := logIdCounter st |}.

Definition MS_PER_DAY : Z := 86400000.

(** [TimeClip(t)]: a time value more than 8.64e15 ms away from the epoch
    is no date ([None] for the time value [NaN]). *)
Definition TimeClip (t : Z) : option Z :=
  if Z.abs t <=? 8640000000000000 then Some t else None.

(** [cutoffDate.setDate(cutoffDate.getDate() - retentionDays)] from
    [cutoffDate = new Date()], the time value [now], for a whole number of
    days: the day of the month is moved in local time, the time within the
    day is kept, and the result is taken back to a time value.  [None] is
    the Invalid Date. *)
Definition cutoffDate (tz : TimeZone) (now retentionDays : Z) : option Z :=
  TimeClip (UTC tz (LocalTime tz now - retentionDays * MS_PER_DAY)).

(** [log.timestamp >= cutoffDate], which is false of an Invalid Date. *)
Definition notOlder (cutoff : option Z) (log : LogEntry) : bool :=
  match cutoff with
  | Some c => c <=? entry_timestamp log
  | None => false
  end.

(** [applyRetentionPolicy(retentionDays, maxEntries)] *)
Definition applyRetentionPolicy (tz : TimeZone) (now retentionDays maxEntries : Z)
    (st : State) : State :=
  let kept := List.filter (notOlder (cutoffDate tz now retentionDays)) (logs st) in
  {| logs := if maxEntries <? Z.of_nat (length kept)
             then Js.slice (- maxEntries) kept else kept;
     logIdCounter := logIdCounter st |}.

End Logger.

(** ** The service worker (background/service-worker.ts)

    The parts of its listeners that choose among the active rules. *)

Module ServiceWorker.

(** [rule.enabled && (rule.action.type === 'modifyBody'
      || rule.action.type === 'mockResponse')] *)
Definition needsFallback {RegExp} (rule : Rule RegExp) : bool :=
  enabled rule
  && match action rule with
     | ModifyBody _ | MockResponse _ => true
     | ModifyHeaders _ | Redirect _ => false
     end.

(** [needsWebRequestFallback()] *)
Definition needsWebRequestFallback {RegExp} (activeRules : list (Rule RegExp))
  : bool :=
  existsb needsFallback activeRules.

Section WithHost.

Context (H : Host).

(** The callback of [activeRules.filter] in the [onBeforeRequest] listener. *)
Definition matchesFallback (details_url details_method : string)
    (rule : Rule (RegExp H)) : Js.Exn bool :=
  if negb (enabled rule) then Js.ret false
  else
    match action rule with
    | ModifyHeaders _ | Redirect _ => Js.ret false
    | ModifyBody _ | MockResponse _ =>
        RuleEngine.evaluateRule H rule
          {| RuleEngine.url := details_url; RuleEngine.method := details_method;
             RuleEngine.headers := ∅; RuleEngine.body := None |}
    end.

(** [matchingRules] of the [onBeforeRequest] listener. *)
Definition matchingRules (activeRules : list (Rule (RegExp H)))
    (details_url details_method : string) : Js.Exn (list (Rule (RegExp H))) :=
  Js.filterM (matchesFallback details_url details_method) activeRules.

(** The rule the listener applies: none when no rule matches, otherwise
    [ruleEngine.sortByPriority(matchingRules)[0]]. *)
Definition appliedRule (activeRules : list (Rule (RegExp H)))
    (details_url details_method : string) : Js.Exn (option (Rule (RegExp H))) :=
  let! matching := matchingRules activeRules details_url details_method in
  Js.ret (head (RuleEngine.sortByPriority H matching)).

End WithHost.

(** [activeRules.find(r => parseInt(r.id) === info.rule.ruleId)] of the
    [onRuleMatchedDebug] listener; [NaN] is equal to no id. *)
Definition matchedRule {H : Host} (B : Browser H)
    (activeRules : list (Rule (RegExp H))) (ruleId : Z)
  : option (Rule (RegExp H)) :=
  List.find
    (fun r => match parseInt B (id r) with
              | Some n => n =? ruleId
              | None => false
              end)
    activeRules.

End ServiceWorker.

(** ** A host to run the model on

    Regular expressions over literals, [\c], [.], [x*] and the two anchors;
    http and https URLs; JSON without escapes and fractions.  Whatever else
    a source asks for is refused with an error.  Of the built-in objects it
    has [Object.prototype] with its twelve properties, the prototypes of
    arrays, strings, numbers, booleans and functions with their
    [constructor], and the functions these hold. *)

Module SampleHost.

Inductive Atom : Type := Lit (c : ascii) | AnyChar.

Inductive Item : Type := One (a : Atom) | Many (a : Atom).

Record Regex : Type := {
  at_start : bool;
  items : list Item;
  at_end : bool
  }.

Definition atom_matches (a : Atom) (c : ascii) : bool :=
  match a with
  | Lit c' => Ascii.eqb c c'
  | AnyChar => negb (Js.line_terminator c)
  end.

(** The items of a source, last first in [acc]. *)
Fixpoint parse_items (src : list ascii) (acc : list Item)
  : Js.Exn (list Item * bool) :=
  match src with
  | [] => Js.ret (rev acc, false)
  | c :: r =>
      if Ascii.eqb c "\" then
        match r with
        | e :: r' =>
            if (RuleEngine.regex_special e || Ascii.eqb e "*" || Ascii.eqb e "/")%bool
            then parse_items r' (One (Lit e) :: acc)
            else Js.throw "Invalid regular expression: escape not supported"
        | [] => Js.throw "Invalid regular expression: \ at end of pattern"
        end
      else if Ascii.eqb c "*" then
        match acc with
        | One a :: acc' => parse_items r (Many a :: acc')
        | _ => Js.throw "Invalid regular expression: Nothing to repeat"
        end
      else if Ascii.eqb c "." then parse_items r (One AnyChar :: acc)
      else if Ascii.eqb c "$" then
        match r with
        | [] => Js.ret (rev acc, true)
        | _ => Js.throw "Invalid regular expression: $ not supported here"
        end
      else if RuleEngine.regex_special c then
        Js.throw "Invalid regular expression: operator not supported"
      else parse_items r (One (Lit c) :: acc)
  end.

Definition compile (source : string) : Js.Exn Regex :=
  let src := String.list_ascii_of_string source in
  let anchored := match src with c :: _ => Ascii.eqb c "^" | [] => false end in
  let! parsed := parse_items (if anchored then tail src else src) [] in
  Js.ret {| at_start := anchored; items := fst parsed; at_end := snd parsed |}.

(** The text left after the longest match of [its] at the head of [s]. *)
Fixpoint match_here (its : list Item) (anchored_end : bool) (s : list ascii)
  : option (list ascii) :=
  match its with
  | [] =>
      if anchored_end then match s with [] => Some [] | _ => None end
      else Some s
  | One a :: r =>
      match s with
      | c :: s' => if atom_matches a c then match_here r anchored_end s' else None
      | [] => None
      end
  | Many a :: r =>
      (fix many (s : list ascii) : option (list ascii) :=
         match s with
         | c :: s' =>
             if atom_matches a c then
               match many s' with
               | Some rest => Some rest
               | None => match_here r anchored_end s
               end
             else match_here r anchored_end s
         | [] => match_here r anchored_end s
         end) s
  end.

(** The leftmost match: what precedes it and what follows it. *)
Fixpoint search (re : Regex) (before s : list ascii)
  : option (list ascii * list ascii) :=
  match match_here (items re) (at_end re) s with
  | Some rest => Some (rev before, rest)
  | None =>
      match s with
      | c :: s' => search re (c :: before) s'
      | [] => None
      end
  end.

Definition exec (re : Regex) (s : string) : option (list ascii * list ascii) :=
  let cs := String.list_ascii_of_string s in
  if at_start re then
    match match_here (items re) (at_end re) cs with
    | Some rest => Some ([], rest)
    | None => None
    end
  else search re [] cs.

Definition test (re : Regex) (s : string) : bool :=
  match exec re s with Some _ => true | None => false end.

(** The first match replaced by [substitution], taken literally. *)
Definition replace (s : string) (re : Regex) (substitution : string) : string :=
  match exec re s with
  | Some (before, after) =>
      String.string_of_list_ascii before +:+ substitution
      +:+ String.string_of_list_ascii after
  | None => s
  end.

Definition blank (c : ascii) : bool :=
  let n := nat_of_ascii c in
  ((n =? 32)%nat || (n =? 9)%nat || (n =? 10)%nat || (n =? 13)%nat)%bool.

(** An http or https URL with a host. *)
Definition parse_url (s : string) : option string :=
  let rest :=
    if Js.startsWith s "https://" then Some (String.substring 8 (String.length s - 8) s)
    else if Js.startsWith s "http://" then Some (String.substring 7 (String.length s - 7) s)
    else None in
  match rest with
  | Some (String c _) =>
      if (Ascii.eqb c "/" || existsb blank (String.list_ascii_of_string s))%bool
      then Some "Invalid URL" else None
  | _ => Some "Invalid URL"
  end.

Definition quote : ascii := ascii_of_nat 34.

Definition quoted (s : string) : string :=
  String quote (s +:+ String quote EmptyString).

Fixpoint skip_blank (s : list ascii) : list ascii :=
  match s with
  | c :: r => if blank c then skip_blank r else s
  | [] => []
  end.

(** The characters up to the closing quote of a string without escapes. *)
Fixpoint read_string (s : list ascii) (acc : list ascii)
  : option (string * list ascii) :=
  match s with
  | [] => None
  | c :: r =>
      if Ascii.eqb c quote then Some (String.string_of_list_ascii (rev acc), r)
      else if Ascii.eqb c "\" then None
      else read_string r (c :: acc)
  end.

Definition literal (word : string) (v : Json) (s : list ascii)
  : option (Json * list ascii) :=
  let w := String.list_ascii_of_string word in
  if bool_decide (take (length w) s = w) then Some (v, drop (length w) s) else None.

Fixpoint parse_value (fuel : nat) (s : list ascii) : option (Json * list ascii) :=
  match fuel with
  | O => None
  | S fuel' =>
      match skip_blank s with
      | [] => None
      | c :: r =>
          if Ascii.eqb c quote then
            match read_string r [] with
            | Some (str, r') => Some (JStr str, r')
            | None => None
            end
          else if Ascii.eqb c "[" then
            match skip_blank r with
            | "]"%char :: r' => Some (JArr [], r')
            | _ =>
                (fix elements (n : nat) (s : list ascii) (acc : list Json)
                   : option (Json * list ascii) :=
                   match n with
                   | O => None
                   | S n' =>
                       match parse_value fuel' s with
                       | Some (v, r1) =>
                           match skip_blank r1 with
                           | ","%char :: r2 => elements n' r2 (v :: acc)
                           | "]"%char :: r2 => Some (JArr (rev (v :: acc)), r2)
                           | _ => None
                           end
                       | None => None
                       end
                   end) fuel' r []
            end
          else if Ascii.eqb c "{" then
            match skip_blank r with
            | "}"%char :: r' => Some (JObj [], r')
            | _ =>
                (fix members (n : nat) (s : list ascii) (acc : list (string * Json))
                   : option (Json * list ascii) :=
                   match n with
                   | O => None
                   | S n' =>
                       match skip_blank s with
                       | q :: r0 =>
                           if Ascii.eqb q quote then
                             match read_string r0 [] with
                             | Some (key, r1) =>
                                 match skip_blank r1 with
                                 | ":"%char :: r2 =>
                                     match parse_value fuel' r2 with
                                     | Some (v, r3) =>
                                         match skip_blank r3 with
                                         | ","%char :: r4 =>
                                             members n' r4 ((key, v) :: acc)
                                         | "}"%char :: r4 =>
                                             Some (JObj (rev ((key, v) :: acc)), r4)
                                         | _ => None
                                         end
                                     | None => None
                                     end
                                 | _ => None
                                 end
                             | None => None
                             end
                           else None
                       | [] => None
                       end
                   end) fuel' r []
            end
          else if Js.is_digit c then
            let digits := fst (Js.span Js.is_digit (c :: r)) in
            Some (JNum (String.string_of_list_ascii digits),
                  snd (Js.span Js.is_digit (c :: r)))
          else
            match literal "null" JNull (c :: r) with
            | Some res => Some res
            | None =>
                match literal "true" (JBool true) (c :: r) with
                | Some res => Some res
                | None => literal "false" (JBool false) (c :: r)
                end
            end
      end
  end.

Definition parse_json (s : string) : Js.Exn Json :=
  let cs := String.list_ascii_of_string s in
  match parse_value (S (length cs)) cs with
  | Some (v, rest) =>
      match skip_blank rest with
      | [] => Js.ret v
      | _ => Js.throw "Unexpected non-whitespace character after JSON"
      end
  | None => Js.throw "Unexpected token in JSON"
  end.

Definition join (parts : list string) : string :=
  match parts with
  | [] => ""
  | p :: ps => foldl (fun acc q => acc +:+ "," +:+ q) p ps
  end.

(** [JSON.stringify]: a property holding [undefined] is left out, a hole
    of an array is written [null]. *)
Fixpoint stringify (v : Json) : string :=
  match v with
  | JUndefined | JNull => "null"
  | JBool true => "true"
  | JBool false => "false"
  | JNum literal => literal
  | JStr s => quoted s
  | JArr elems => "[" +:+ join (map stringify elems) +:+ "]"
  | JObj props =>
      "{" +:+ join
               ((fix members (ps : list (string * Json)) : list string :=
                   match ps with
                   | [] => []
                   | (k, JUndefined) :: r => members r
                   | (k, x) :: r => (quoted k +:+ ":" +:+ stringify x) :: members r
                   end) props)
      +:+ "}"
  end.

Inductive Proto : Type :=
  PObject | PArray | PString | PNumber | PBoolean | PFunction.

Inductive BuiltinObject : Type :=
  | Prototype (p : Proto)
  | Function (name : string).

Definition proto_of (k : Kind) : Proto :=
  match k with
  | KObject => PObject
  | KArray => PArray
  | KString => PString
  | KNumber => PNumber
  | KBoolean => PBoolean
  end.

Definition constructor_of (p : Proto) : string :=
  match p with
  | PObject => "Object"
  | PArray => "Array"
  | PString => "String"
  | PNumber => "Number"
  | PBoolean => "Boolean"
  | PFunction => "Function"
  end.

(** [f.prototype] of a constructor. *)
Definition prototype_of (f : string) : option Proto :=
  List.find (fun p => String.eqb (constructor_of p) f)
    [PObject; PArray; PString; PNumber; PBoolean; PFunction].

(** The functions of [Object.prototype], which every object inherits. *)
Definition object_functions : list string :=
  [ "__defineGetter__"; "__defineSetter__"; "hasOwnProperty";
    "__lookupGetter__"; "__lookupSetter__"; "isPrototypeOf";
    "propertyIsEnumerable"; "toString"; "valueOf"; "toLocaleString" ].

(** The functions [Function.prototype] adds. *)
Definition function_functions : list string := [ "apply"; "bind"; "call" ].

(** [String(f)] for a built-in function. *)
Definition native (f : string) : string :=
  "function " +:+ f +:+ "() { [native code] }".

(** [f.length] *)
Definition arity (f : string) : string :=
  if Js.includes ["__defineGetter__"; "__defineSetter__"; "apply"] f then "2"
  else if Js.includes ["toString"; "valueOf"; "toLocaleString"] f then "0"
  else "1".

(** The accessors [caller] and [arguments] of [Function.prototype]. *)
Definition poisoned (name : string) : bool :=
  Js.includes ["caller"; "arguments"] name.

Definition poisoned_message : string :=
  "'caller', 'callee', and 'arguments' properties may not be accessed on "
  +:+ "strict mode functions or the arguments objects for calls to them".

(** The object or function a prototype holds or inherits under a name,
    [__proto__] apart. *)
Definition member_of (p : Proto) (name : string) : option BuiltinObject :=
  if String.eqb name "constructor" then Some (Function (constructor_of p))
  else if Js.includes object_functions name then Some (Function name)
  else
    match p with
    | PFunction =>
        if Js.includes function_functions name then Some (Function name) else None
    | _ => None
    end.

Definition inherited_by (k : Kind) (name : string) : option BuiltinObject :=
  if String.eqb name "__proto__" then Some (Prototype (proto_of k))
  else member_of (proto_of k) name.

Definition builtin_get (b : BuiltinObject) (name : string)
  : Js.Exn (Json + BuiltinObject) :=
  match b with
  | Prototype p =>
      if String.eqb name "__proto__" then
        Js.ret (match p with
                | PObject => inl JNull
                | _ => inr (Prototype PObject)
                end)
      else
        match member_of p name with
        | Some m => Js.ret (inr m)
        | None =>
            match p with
            | PFunction =>
                if poisoned name then Js.throw poisoned_message
                else if String.eqb name "name" then Js.ret (inl (JStr ""))
                else if String.eqb name "length" then Js.ret (inl (JNum "0"))
                else Js.ret (inl JUndefined)
            | PArray | PString =>
                if String.eqb name "length" then Js.ret (inl (JNum "0"))
                else Js.ret (inl JUndefined)
            | _ => Js.ret (inl JUndefined)
            end
        end
  | Function f =>
      if String.eqb name "__proto__" then Js.ret (inr (Prototype PFunction))
      else if String.eqb name "name" then Js.ret (inl (JStr f))
      else if String.eqb name "length" then Js.ret (inl (JNum (arity f)))
      else if String.eqb name "prototype" then
        Js.ret (match prototype_of f with
                | Some p => inr (Prototype p)
                | None => inl JUndefined
                end)
      else if poisoned name then Js.throw poisoned_message
      else
        Js.ret (match member_of PFunction name with
                | Some m => inr m
                | None => inl JUndefined
                end)
  end.

Definition read_only (name owner : string) : string :=
  "Cannot assign to read only property '" +:+ name +:+ "' of " +:+ owner.

Definition builtin_set (b : BuiltinObject) (name : string) (x : Json)
  : option string :=
  match b with
  | Prototype p =>
      if String.eqb name "__proto__" then
        match p, x with
        | PObject, (JArr _ | JObj _) =>
            Some ("Immutable prototype object 'Object.prototype' cannot have "
                  +:+ "their prototype set")
        | _, _ => None
        end
      else
        match p with
        | PFunction =>
            if poisoned name then Some poisoned_message
            else if Js.includes ["name"; "length"] name
                 then Some (read_only name ("function '" +:+ native "" +:+ "'"))
                 else None
        | PString =>
            if String.eqb name "length"
            then Some (read_only name "object '[object String]'") else None
        | PArray =>
            if String.eqb name "length" then
              match JsObject.to_array_length x with
              | Some _ => None
              | None => Some "Invalid array length"
              end
            else None
        | _ => None
        end
  | Function f =>
      if String.eqb name "__proto__" then None
      else if poisoned name then Some poisoned_message
      else if (Js.includes ["name"; "length"] name
               || (String.eqb name "prototype"
                   && match prototype_of f with Some _ => true | None => false end))%bool
           then Some (read_only name ("function '" +:+ native f +:+ "'"))
           else None
  end.

Definition builtin_toString (b : BuiltinObject) : string :=
  match b with
  | Prototype PObject => "[object Object]"
  | Prototype PArray | Prototype PString => ""
  | Prototype PNumber => "0"
  | Prototype PBoolean => "false"
  | Prototype PFunction => native ""
  | Function f => native f
  end.

(** The double nearest to an integer, ties to even. *)
Definition nearest_double (n : N) : N :=
  let size := N.size n in
  if (size <=? 53)%N then n
  else
    let shift := (size - 53)%N in
    let q := N.shiftr n shift in
    let r := N.land n (N.ones shift) in
    let half := N.shiftl 1 (shift - 1) in
    let up := ((half <? r) || ((r =? half) && N.odd q))%N%bool in
    N.shiftl (if up then q + 1 else q)%N shift.

(** The digits of the double nearest to the number of [digits], in full:
    below 2^54 these are the digits [String] gives. *)
Definition nearest_index (digits : string) : string :=
  Js.of_index (nearest_double (Js.parse_digits (String.list_ascii_of_string digits))).

Definition host : Host :=
  {| RegExp := Regex;
     new_RegExp := compile;
     RegExp_test := test;
     String_replace := replace;
     new_URL := parse_url;
     JSON_parse := parse_json;
     JSON_stringify := stringify;
     TextDecoder_decode := fun bytes => bytes;
     Builtin := BuiltinObject;
     inherited := inherited_by;
     Builtin_get := builtin_get;
     Builtin_set := builtin_set;
     Builtin_toString := builtin_toString;
     large_index := nearest_index |}.

(** Universal time: local time is the time value. *)
Definition utc : TimeZone := {| LocalTime := fun t => t; UTC := fun t => t |}.

End SampleHost.

Module SampleBrowser.

Definition show_atom (a : SampleHost.Atom) : string :=
  match a with
  | SampleHost.Lit c =>
      if (RuleEngine.regex_special c || Ascii.eqb c "*")%bool
      then String "\" (String c EmptyString) else String c EmptyString
  | SampleHost.AnyChar => "."
  end.

Definition show_item (i : SampleHost.Item) : string :=
  match i with
  | SampleHost.One a => show_atom a
  | SampleHost.Many a => show_atom a +:+ "*"
  end.

Definition source (re : SampleHost.Regex) : string :=
  (if SampleHost.at_start re then "^" else "")
  +:+ foldr (fun i rest => show_item i +:+ rest) "" (SampleHost.items re)
  +:+ (if SampleHost.at_end re then "$" else "").

(** The decimal digits a string starts with, as [parseInt] reads them. *)
Definition leading_int (s : string) : option Z :=
  match fst (Js.span Js.is_digit (String.list_ascii_of_string s)) with
  | [] => None
  | ds => Some (Z.of_N (Js.parse_digits ds))
  end.

Definition browser : Browser SampleHost.host :=
  Build_Browser SampleHost.host source leading_int
    (fun draws => 424242 + Z.of_nat draws).

End SampleBrowser.

(** ** The specification's reading of the operations

    Definitions written from the words of the specification, to be compared
    with the ones above. *)

Module Spec.

(** A header operation folded onto a header map: Set overwrites, Remove
    deletes, Append concatenates [", value"] onto an existing value or sets
    it fresh when absent.  An operation without a value is read as the
    source reads it. *)
Definition headerStep (m : gmap string string) (op : HeaderOperation)
  : gmap string string :=
  match operation op with
  | OpSet => <[header op := Js.or_empty (value op)]> m
  | OpRemove => delete (header op) m
  | OpAppend =>
      match m !! header op with
      | Some existing =>
          <[header op := existing +:+ ", " +:+ Js.template (value op)]> m
      | None => <[header op := Js.or_empty (value op)]> m
      end
  end.

(** The same fold where Append takes an empty value for an absent one. *)
Definition headerStepNonEmpty (m : gmap string string) (op : HeaderOperation)
  : gmap string string :=
  match operation op with
  | OpAppend =>
      match m !! header op with
      | Some "" => <[header op := Js.or_empty (value op)]> m
      | _ => headerStep m op
      end
  | _ => headerStep m op
  end.

Definition unrestricted (ops : list HeaderOperation) : list HeaderOperation :=
  List.filter (fun op => negb (RuleEngine.restricted op)) ops.

(** The trace entry of one operation. *)
Definition traceEntry (op : HeaderOperation) : string :=
  if RuleEngine.restricted op then "Skipped restricted header: " +:+ header op
  else
    match operation op with
    | OpSet => "Set header: " +:+ header op +:+ " = " +:+ Js.template (value op)
    | OpRemove => "Removed header: " +:+ header op
    | OpAppend =>
        "Appended header: " +:+ header op +:+ " += " +:+ Js.template (value op)
    end.

(** The candidate URL of a redirection: the first match of the destination,
    taken as a regular expression, replaced by [regexSubstitution] in the
    original URL when [regexSubstitution] is present, otherwise the
    destination verbatim. *)
Definition candidateURL (H : Host) (action : URLRedirection)
    (request : RuleEngine.RequestInfo) : Js.Exn string :=
  match regexSubstitution action with
  | Some substitution =>
    let! regex := new_RegExp H (destination action) in
    Js.ret (String_replace H (RuleEngine.url request) regex substitution)
  | None => Js.ret (destination action)
  end.

(** The same candidate where an empty [regexSubstitution] counts as none. *)
Definition candidateURLNonEmpty (H : Host) (action : URLRedirection)
    (request : RuleEngine.RequestInfo) : Js.Exn string :=
  match regexSubstitution action with
  | Some "" | None => Js.ret (destination action)
  | Some substitution =>
    let! regex := new_RegExp H (destination action) in
    Js.ret (String_replace H (RuleEngine.url request) regex substitution)
  end.

(** The syntax characters of a regular expression. *)
Definition metacharacters : list ascii :=
  String.list_ascii_of_string "^$\.*+?()[]{}|".

(** A wildcard pattern as a regular expression: every metacharacter but
    [*] escaped, every [*] replaced by [.*], anchored at both ends. *)
Definition wildcardRegex (pattern : string) : string :=
  "^" +:+ Js.replace_each
          (fun c =>
             if Ascii.eqb c "*" then ".*"
             else if bool_decide (c ∈ metacharacters)
                  then String "\" (String c EmptyString)
                  else String c EmptyString)
          pattern
  +:+ "$".

(** The member a container holds under a name: a value of an object, an
    element of an array. *)
Definition member (current : Json) (key : string) : option Json :=
  match current with
  | JObj props => JsObject.assoc key props
  | JArr elems =>
    match Js.array_index key with
    | Some i => elems !! N.to_nat i
    | None => None
    end
  | _ => None
  end.

(** The number [n] of [key[n]], written without leading zeros. *)
Definition indexName (index : string) : string :=
  Js.of_index (Js.parse_digits (String.list_ascii_of_string index)).

(** What a path segment names in [current]: [key] names a member, [key[n]]
    the element [n] of the member [key]. *)
Definition segment (current : Json) (part : string) : option Json :=
  match RuleEngine.arrayMatch part with
  | Some (key, index) =>
    match member current key with
    | Some inner => member inner (indexName index)
    | None => None
    end
  | None => member current part
  end.

(** A name that every plain object answers to without holding it, from
    [Object.prototype]: [constructor], [toString], [__proto__] and the
    like. *)
Definition objectName (H : Host) (name : string) : bool :=
  String.eqb name "__proto__"
  || match inherited H KObject name with Some _ => true | None => false end.


(** The index of a segment [key[n]] is below 2^53. *)
Definition smallIndex (part : string) : bool :=
  match RuleEngine.arrayMatch part with
  | Some (_, index) =>
      (Js.parse_digits (String.list_ascii_of_string index) <? 9007199254740992)%N
  | None => true
  end.


(** The dot-delimited segments of a path before its last one. *)
Definition intermediateSegments (path : string) : list string :=
  removelast (Js.split "." path).


(** Header names that are equal up to case. *)
Definition sameName (a b : string) : bool :=
  String.eqb (Js.toLowerCase a) (Js.toLowerCase b).

Definition sensitiveNames : list string :=
  [ "authorization"; "cookie"; "set-cookie"; "proxy-authorization";
  "www-authenticate"; "x-api-key"; "api-key" ].

Definition sensitive (key : string) : bool :=
  existsb (sameName key) sensitiveNames.

(** The logged value of the header [key: v] of an exchange with URL [u]. *)
Definition redacted (u key v : string) : string :=
  if (Js.startsWith u "https://" && sensitive key)%bool then "[FILTERED]" else v.

(** The same where the header [__proto__] of an [https://] exchange is
    not recorded at all. *)
Definition recorded (u key : string) (v : option string) : option string :=
  if (Js.startsWith u "https://" && String.eqb key "__proto__")%bool then None
  else redacted u key <$> v.

(** The number of action clauses of a rule that are present. *)
Definition clauses {RegExp} (rule : Rule RegExp) : nat :=
  match action rule with
  | ModifyHeaders a =>
    ((match requestHeaders a with Some _ => 1 | None => 0 end)
     + (match responseHeaders a with Some _ => 1 | None => 0 end))%nat
  | _ => 1%nat
  end.

(** An entry satisfies every predicate the filter supplies. *)
Definition satisfies (H : Host) (f : LogFilter) (log : LogEntry) : bool :=
  (match filter_urlPattern f with
 | Some pattern =>
     match new_RegExp H pattern with
     | inl re => RegExp_test H re (entry_url log)
     | inr _ => false
     end
 | None => true
 end)
  && (match filter_method f with
    | Some m => String.eqb (entry_method log) m
    | None => true
    end)
  && (match filter_statusCode f with
    | Some c => bool_decide (entry_statusCode log = Some c)
    | None => true
    end)
  && (match filter_hasModifications f with
    | Some b => Bool.eqb b (negb (length (entry_modifications log) =? 0)%nat)
    | None => true
    end)
  && (match filter_dateRange f with
    | Some (start, finish) =>
        (start <=? entry_timestamp log) && (entry_timestamp log <=? finish)
    | None => true
    end).

(** The same where an empty [urlPattern] or [method] counts as not supplied. *)
Definition nonEmpty (o : option string) : option string :=
  match o with Some "" => None | _ => o end.

Definition satisfiesNonEmpty (H : Host) (f : LogFilter) (log : LogEntry) : bool :=
  satisfies H
  {| filter_urlPattern := nonEmpty (filter_urlPattern f);
     filter_method := nonEmpty (filter_method f);
     filter_statusCode := filter_statusCode f;
     filter_hasModifications := filter_hasModifications f;
     filter_dateRange := filter_dateRange f |}
  log.

Definition selected (H : Host) (f : option LogFilter) (log : LogEntry) : bool :=
  match f with Some f => satisfiesNonEmpty H f log | None => true end.

Definition chronologically (a b : LogEntry) : Prop :=
  entry_timestamp a <= entry_timestamp b.

(** The retention policy: drop the entries older than the retention
    period, sort the rest by timestamp and keep the [maxEntries] most
    recent ones. *)
Definition retained (now retentionDays maxEntries : Z) (logs : list LogEntry)
  : list LogEntry :=
  let recent :=
  List.filter
    (fun log => now - retentionDays * 86400000 <=? entry_timestamp log) logs in
  let sorted := Js.sort Logger.chronological recent in
  if maxEntries <? Z.of_nat (length sorted)
  then drop (Z.to_nat (Z.of_nat (length sorted) - maxEntries)) sorted
  else sorted.

(** What a rule becomes in the browser's declarative rules, if anything:
    the action of an enabled modifyHeaders or redirect rule. *)
Definition declarativeAction {RegExp} (rule : Rule RegExp) : option Chrome.Action :=
  if enabled rule then
    match action rule with
    | ModifyHeaders a =>
        Some (Chrome.MODIFY_HEADERS (default [] (requestHeaders a))
                (default [] (responseHeaders a)))
    | Redirect a => Some (Chrome.REDIRECT (destination a))
    | ModifyBody _ | MockResponse _ => None
    end
  else None.

(** A declarative rule without its id. *)
Definition withoutId (d : Chrome.DeclarativeRule)
  : Z * Chrome.Action * string * list Chrome.ResourceType :=
  (Chrome.rule_priority d, Chrome.rule_action d, Chrome.urlFilter d,
   Chrome.resourceTypes d).

(** The callback of a filter accepted [x]. *)
Definition accepted {A} (f : A -> Js.Exn bool) (x : A) : bool :=
  match f x with inl true => true | _ => false end.

(** What a path of segments leads to in a structure. *)
Fixpoint resolve (current : Json) (parts : list string) : option Json :=
  match parts with
  | [] => Some current
  | part :: rest =>
      match segment current part with
      | Some next => resolve next rest
      | None => None
      end
  end.

(** What a path of member names leads to in a structure. *)
Fixpoint resolveKeys (current : Json) (keys : list string) : option Json :=
  match keys with
  | [] => Some current
  | key :: rest =>
      match member current key with
      | Some next => resolveKeys next rest
      | None => None
      end
  end.

(** The size of a body in bytes. *)
Definition byteLength (b : Body) : Z :=
  match b with
  | BString s => Js.utf8_length s
  | BBuffer bytes => Z.of_nat (String.length bytes)
  end.

(** A string of decimal digits. *)
Definition digits (s : string) : bool :=
  forallb Js.is_digit (String.list_ascii_of_string s).

(** A logger that started empty and was only ever used through
    [logRequest], [logResponse], [clearLogs] and [applyRetentionPolicy]. *)
Inductive operated {RegExp : Type} : Logger.State -> Prop :=
| operated_empty : operated Logger.empty
| operated_logRequest now request (rules : list (Rule RegExp)) st :
    operated st -> operated (Logger.logRequest now request rules st)
| operated_logResponse now response request (rules : list (Rule RegExp)) st :
    operated st -> operated (Logger.logResponse now response request rules st)
| operated_clearLogs olderThan st :
    operated st -> operated (Logger.clearLogs olderThan st)
| operated_applyRetentionPolicy tz now retentionDays maxEntries st :
    operated st ->
    operated (Logger.applyRetentionPolicy tz now retentionDays maxEntries st).

(** The ids of a store are distinct and were made by [generateLogId] from
    counters below the current one. *)
Definition issued (st : Logger.State) : Prop :=
  0 <= Logger.logIdCounter st
  ∧ NoDup (map entry_id (Logger.logs st))
  ∧ Forall (λ e, ∃ now c, 0 <= c < Logger.logIdCounter st
                          ∧ entry_id e
                            = "log-" +:+ Js.of_int now +:+ "-" +:+ Js.of_int c)
      (Logger.logs st).

(** Ascending order of keys. *)
Definition ascending {A} (key : A -> Z) (a b : A) : Prop := key a <= key b.

End Spec.

(** ** Concrete rules and exchanges *)

Module Samples.

Definition rule (a : RuleAction) : Rule SampleHost.Regex :=
  {| id := "rule-1"; name := "sample"; enabled := true; priority := 10;
     urlPattern := PString "https://*.example.com/*"; action := a;
     createdAt := 0; modifiedAt := 0 |}.

Definition request : RuleEngine.RequestInfo :=
  {| RuleEngine.url := "https://api.example.com/v1/users";
     RuleEngine.method := "POST";
     RuleEngine.headers := {[ "Accept" := "text/html"; "X-Tag" := "" ]};
     RuleEngine.body := Some (BString "{}") |}.

Definition modified : RuleEngine.ModifiedRequest :=
  {| RuleEngine.m_url := RuleEngine.url request;
     RuleEngine.m_method := RuleEngine.method request;
     RuleEngine.m_headers := RuleEngine.headers request;
     RuleEngine.m_body := RuleEngine.body request;
     RuleEngine.modifications := [] |}.

Definition appendTag : HeaderOperation :=
  {| operation := OpAppend; header := "X-Tag"; value := Some "b" |}.

Definition headerOps : list HeaderOperation :=
  [ {| operation := OpSet; header := "X-Test"; value := Some "v" |};
    {| operation := OpSet; header := "Cookie"; value := Some "sid=1" |};
    {| operation := OpAppend; header := "Accept"; value := Some "text/plain" |};
    {| operation := OpRemove; header := "X-Test"; value := None |} ].

Definition headerAction (ops : list HeaderOperation) : HeaderModification :=
  {| requestHeaders := Some ops; responseHeaders := None |}.

Definition responseOnly : HeaderModification :=
  {| requestHeaders := None; responseHeaders := Some headerOps |}.

Definition stripHost : URLRedirection :=
  {| destination := "https://api.example.com"; regexSubstitution := Some "" |}.

Definition notAURL : URLRedirection :=
  {| destination := "not a url"; regexSubstitution := None |}.

Definition disabled : Rule SampleHost.Regex :=
  {| id := "rule-2"; name := "off"; enabled := false; priority := 1;
   urlPattern := PString "*"; action := Redirect notAURL;
   createdAt := 0; modifiedAt := 0 |}.

Definition renameProfile : BodyModification :=
  {| target := TargetRequest; contentType := CtJson;
   modification := JSONPathModification "profile.name" (JStr "x") |}.


Definition entry (i : string) (t : Z) (u m : string) : LogEntry :=
  {| entry_id := i; entry_timestamp := t; entry_url := u; entry_method := m;
   entry_statusCode := None; entry_requestHeaders := ∅;
   entry_responseHeaders := None; entry_appliedRules := [];
   entry_modifications := [] |}.

Definition noRules : list (Rule SampleHost.Regex) := [].

Definition exchange (u : string) (t : Z) : Logger.RequestInfo :=
  {| Logger.url := u; Logger.method := "GET"; Logger.headers := ∅;
   Logger.timestamp := t |}.

(** A logger that was handed the more recent of two exchanges first. *)
Definition unordered : Logger.State :=
  Logger.logRequest 3001 (exchange "https://api.example.com/a" 1000) noRules
  (Logger.logRequest 3000 (exchange "https://api.example.com/b" 2000) noRules
     Logger.empty).

Definition newer : LogEntry :=
  entry "log-3000-0" 2000 "https://api.example.com/b" "GET".
Definition older : LogEntry :=
  entry "log-3001-1" 1000 "https://api.example.com/a" "GET".

Definition emptyMethod : LogFilter :=
  {| filter_urlPattern := None; filter_method := Some "";
   filter_statusCode := None; filter_hasModifications := None;
   filter_dateRange := None |}.

Definition byPattern : LogFilter :=
  {| filter_urlPattern := Some "example\.com/a"; filter_method := Some "GET";
   filter_statusCode := None; filter_hasModifications := Some false;
   filter_dateRange := Some (0, 5000) |}.

Definition loggedRequest : Logger.RequestInfo :=
  {| Logger.url := "https://api.example.com/v1/users"; Logger.method := "GET";
   Logger.headers := {[ "Authorization" := "secret"; "Accept" := "text/html" ]};
   Logger.timestamp := 1500 |}.


Definition emptyClauses : HeaderModification :=
  {| requestHeaders := Some []; responseHeaders := None |}.

Definition ruleWith (i : string) (p : Z) (on : bool) (a : RuleAction)
  : Rule SampleHost.Regex :=
  {| id := i; name := i; enabled := on; priority := p;
     urlPattern := PString "https://*.example.com/*"; action := a;
     createdAt := 0; modifiedAt := 0 |}.

Definition mock : RuleAction :=
  MockResponse {| statusCode := 200; mock_headers := ∅; mock_body := "ok" |}.

(** Four active rules: two mocks of priority 5, a header rule and a mock
    that is switched off. *)
Definition activeRules : list (Rule SampleHost.Regex) :=
  [ ruleWith "7" 1 true (ModifyHeaders (headerAction headerOps));
    ruleWith "8" 5 true mock;
    ruleWith "9" 5 true (ModifyBody renameProfile);
    ruleWith "10" 9 false mock ].

(** [{"user":{"name":"a","email":"e"},"n":[1,2]}] *)
Definition document : Json :=
  JObj [("user", JObj [("name", JStr "a"); ("email", JStr "e")]);
        ("n", JArr [JNum "1"; JNum "2"])].

(** An entry that has two rule ids already, one of them of an active
    rule. *)
Definition partly : LogEntry :=
  {| entry_id := "log-3000-0"; entry_timestamp := 2000;
     entry_url := "https://api.example.com/b"; entry_method := "GET";
     entry_statusCode := None; entry_requestHeaders := ∅;
     entry_responseHeaders := None; entry_appliedRules := ["8"; "x"];
     entry_modifications := [] |}.

(** A logger with two entries of the same timestamp, stored after a more
    recent one. *)
Definition tied : Logger.State :=
  Logger.logRequest 3002 (exchange "https://api.example.com/a" 1000) noRules
    (Logger.logRequest 3001 (exchange "https://api.example.com/c" 1000) noRules
       (Logger.logRequest 3000 (exchange "https://api.example.com/b" 2000) noRules
          Logger.empty)).

Definition anyExample : LogFilter :=
  {| filter_urlPattern := Some "example\.com/"; filter_method := Some "GET";
     filter_statusCode := None; filter_hasModifications := None;
     filter_dateRange := None |}.

(** An Append and a Set on [X-Tag], followed by operations on other
    names. *)
Definition rewrites : list HeaderOperation :=
  [ appendTag;
    {| operation := OpSet; header := "X-Tag"; value := Some "v" |};
    {| operation := OpAppend; header := "Accept"; value := Some "text/plain" |};
    {| operation := OpRemove; header := "X-Test"; value := None |} ].

(** [{"items":[{"id":1},{"id":2}]}] *)
Definition catalogue : Json :=
  JObj [("items", JArr [JObj [("id", JNum "1")]; JObj [("id", JNum "2")]])].

End Samples.

(** ** Header modification *)

Section HeaderModification.

Import RuleEngine.

Context (H : Host).


Lemma objectName_false (name : string) :
  Spec.objectName H name = false →
  name ≠ "__proto__" ∧ inherited H KObject name = None.
Proof.
  unfold Spec.objectName. intros [Hname Hnone]%orb_false_iff.
  split; [by apply String.eqb_neq|]. by destruct (inherited H KObject name).
Qed.

Lemma header_get_plain (headers : gmap string string) (name : string) :
  Spec.objectName H name = false →
  header_get H headers name = inl <$> headers !! name.
Proof.
  intros [_ Hnone]%objectName_false. unfold header_get.
  destruct (headers !! name); [done|]. by rewrite Hnone.
Qed.

Lemma header_set_plain (name s : string) (headers : gmap string string) :
  name ≠ "__proto__" → header_set name s headers = <[name := s]> headers.
Proof.
  intros Hname%String.eqb_neq. unfold header_set. rewrite Hname.
  by destruct (headers !! name).
Qed.

Lemma applyHeaderOperation_frame modified op :
  m_url (applyHeaderOperation H modified op) = m_url modified
  ∧ m_method (applyHeaderOperation H modified op) = m_method modified
  ∧ m_body (applyHeaderOperation H modified op) = m_body modified.
Proof.
  unfold applyHeaderOperation.
  destruct (restricted op); [done|].
  by destruct (operation op).
Qed.

Lemma applyHeaderOperation_trace modified op :
  modifications (applyHeaderOperation H modified op)
  = (modifications modified ++ [Spec.traceEntry op])%list.
Proof.
  unfold applyHeaderOperation, Spec.traceEntry.
  destruct (restricted op); [done|].
  by destruct (operation op).
Qed.

Lemma applyHeaderOperation_restricted modified op :
  restricted op = true →
  m_headers (applyHeaderOperation H modified op) = m_headers modified.
Proof. unfold applyHeaderOperation. by intros ->. Qed.

Lemma applyHeaderOperation_unrestricted modified op :
  restricted op = false →
  Spec.objectName H (header op) = false →
  m_headers (applyHeaderOperation H modified op)
  = Spec.headerStepNonEmpty (m_headers modified) op.
Proof.
  unfold applyHeaderOperation, Spec.headerStepNonEmpty, Spec.headerStep.
  intros -> Hplain.
  pose proof (objectName_false _ Hplain) as [Hname _].
  destruct (operation op); simpl; rewrite ?header_set_plain by done; try done.
  rewrite header_get_plain by done.
  destruct (m_headers modified !! header op) as [existing|] eqn:Hcur; simpl; [|done].
  unfold Js.truthy.
  destruct (String.eqb_spec existing "") as [->|Hne]; simpl; [done|].
  by destruct existing.
Qed.

Lemma foldl_applyHeaderOperation_frame ops : ∀ modified,
  modifications (foldl (applyHeaderOperation H) modified ops)
  = (modifications modified ++ map Spec.traceEntry ops)%list
  ∧ m_url (foldl (applyHeaderOperation H) modified ops) = m_url modified
  ∧ m_method (foldl (applyHeaderOperation H) modified ops) = m_method modified
  ∧ m_body (foldl (applyHeaderOperation H) modified ops) = m_body modified.
Proof.
  induction ops as [|op ops IH]; intros modified; simpl.
  - by rewrite app_nil_r.
  - destruct (IH (applyHeaderOperation H modified op)) as (Ht & Hu & Hm & Hb).
    destruct (applyHeaderOperation_frame modified op) as (Hu' & Hm' & Hb').
    rewrite Ht, Hu, Hm, Hb, Hu', Hm', Hb', applyHeaderOperation_trace.
    by rewrite <- app_assoc.
Qed.

Lemma foldl_applyHeaderOperation ops : ∀ modified,
  Forall (λ op, Spec.objectName H (header op) = false) (Spec.unrestricted ops) →
  m_headers (foldl (applyHeaderOperation H) modified ops)
  = foldl Spec.headerStepNonEmpty (m_headers modified) (Spec.unrestricted ops).
Proof.
  induction ops as [|op ops IH]; intros modified; simpl; [done|].
  unfold Spec.unrestricted. simpl.
  destruct (restricted op) eqn:Hr; simpl.
  - intros Hplain. rewrite IH by done. by rewrite applyHeaderOperation_restricted.
  - intros [Hop Hplain]%Forall_cons. rewrite IH by done.
    by rewrite applyHeaderOperation_unrestricted.
Qed.

End HeaderModification.

Section HeaderModificationClaims.

Import RuleEngine.

(** C1, as stated, fails on a header that is present with an empty value:
    [if (modified.headers[op.header])] takes the empty string for an absent
    header, so appending [b] to [X-Tag: ""] leaves [b], where the fold of
    the specification gives [", b"]. *)
Lemma append_onto_empty_value :
  let ops := [Samples.appendTag] in
  let result :=
    applyHeaderModifications SampleHost.host (Samples.headerAction ops)
      Samples.modified in
  m_headers Samples.modified !! "X-Tag" = Some ""
  ∧ m_headers result !! "X-Tag" = Some "b"
  ∧ foldl Spec.headerStep (m_headers Samples.modified) (Spec.unrestricted ops)
      !! "X-Tag" = Some ", b"
  ∧ m_headers result
    ≠ foldl Spec.headerStep (m_headers Samples.modified) (Spec.unrestricted ops).
Proof.
  assert (Hcode : m_headers (applyHeaderModifications SampleHost.host
                               (Samples.headerAction [Samples.appendTag])
                               Samples.modified) !! "X-Tag" = Some "b")
    by (vm_compute; reflexivity).
  assert (Hspec : foldl Spec.headerStep (m_headers Samples.modified)
                    (Spec.unrestricted [Samples.appendTag]) !! "X-Tag"
                  = Some ", b")
    by (vm_compute; reflexivity).
  intros ops result. split; [vm_compute; reflexivity|].
  split; [exact Hcode|]. split; [exact Hspec|].
  intros Heq. unfold result, ops in Heq. rewrite Heq, Hspec in Hcode.
  discriminate.
Qed.

(** C1, amended: when no operation on a non-restricted name names a
    property that objects inherit from [Object.prototype] ([constructor],
    [toString], [__proto__] and the like), the header map
    [applyHeaderModifications] returns is the left-to-right fold of the
    non-restricted operations over the input map, where Set overwrites,
    Remove deletes and Append concatenates [", value"] onto an existing
    non-empty value and sets the value fresh when the header is absent or
    empty.  Whatever the names, the trace grows by one entry per operation,
    in order; an operation on a restricted name has the entry
    ["Skipped restricted header: <name>"] and drops out of the fold, the
    operations after it being applied as before. *)
Theorem applyHeaderModifications_fold
    (H : Host) (action : HeaderModification) (modified : ModifiedRequest)
    (ops : list HeaderOperation) :
  requestHeaders action = Some ops →
  (Forall (λ op, Spec.objectName H (header op) = false) (Spec.unrestricted ops) →
   m_headers (applyHeaderModifications H action modified)
   = foldl Spec.headerStepNonEmpty (m_headers modified) (Spec.unrestricted ops))
  ∧ modifications (applyHeaderModifications H action modified)
    = (modifications modified ++ map Spec.traceEntry ops)%list
  ∧ (∀ before op after,
       ops = (before ++ op :: after)%list →
       Js.includes SECURITY_RESTRICTED_HEADERS (Js.toLowerCase (header op)) = true →
       Spec.traceEntry op = "Skipped restricted header: " +:+ header op
       ∧ Spec.unrestricted ops = Spec.unrestricted (before ++ after)
       ∧ m_headers (foldl (applyHeaderOperation H) modified (before ++ [op]))
         = m_headers (foldl (applyHeaderOperation H) modified before)).
Proof.
  intros Hops. unfold applyHeaderModifications. rewrite Hops. simpl.
  split; [by apply foldl_applyHeaderOperation|].
  destruct (foldl_applyHeaderOperation_frame H ops modified) as (Ht & _).
  split; [exact Ht|].
  intros before op after -> Hr.
  change (restricted op = true) in Hr.
  split; [|split].
  - unfold Spec.traceEntry. by rewrite Hr.
  - unfold Spec.unrestricted. rewrite !List.filter_app. simpl. by rewrite Hr.
  - rewrite foldl_app. simpl. by apply applyHeaderOperation_restricted.
Qed.

Lemma applyHeaderModifications_fold_witness :
  requestHeaders (Samples.headerAction Samples.headerOps) = Some Samples.headerOps
  ∧ Forall (λ op, Spec.objectName SampleHost.host (header op) = false)
      (Spec.unrestricted Samples.headerOps)
  ∧ m_headers (applyHeaderModifications SampleHost.host
                 (Samples.headerAction Samples.headerOps) Samples.modified)
    = foldl Spec.headerStepNonEmpty (m_headers Samples.modified)
        (Spec.unrestricted Samples.headerOps).
Proof.
  assert (Hplain : Forall (λ op, Spec.objectName SampleHost.host (header op) = false)
                     (Spec.unrestricted Samples.headerOps))
    by (repeat constructor).
  split; [reflexivity|]. split; [exact Hplain|].
  apply (applyHeaderModifications_fold SampleHost.host
           (Samples.headerAction Samples.headerOps)
           Samples.modified Samples.headerOps eq_refl).
  exact Hplain.
Defined.

(** What the proviso of C1 is for.  Appending to the absent header
    [constructor] reads the function every object inherits under that
    name and stores its text before the value; setting the absent header
    [__proto__] stores nothing, and is traced all the same. *)
Example applyHeaderModifications_inherited_names :
  let append :=
    applyHeaderModifications SampleHost.host
      (Samples.headerAction
         [{| operation := OpAppend; header := "constructor"; value := Some "v" |}])
      Samples.modified in
  let set :=
    applyHeaderModifications SampleHost.host
      (Samples.headerAction
         [{| operation := OpSet; header := "__proto__"; value := Some "x" |}])
      Samples.modified in
  m_headers Samples.modified !! "constructor" = None
  ∧ m_headers append !! "constructor"
    = Some "function Object() { [native code] }, v"
  ∧ m_headers set = m_headers Samples.modified
  ∧ modifications set = ["Set header: __proto__ = x"].
Proof. repeat split; vm_compute; reflexivity. Qed.

(** C10: a header-modification rule only ever processes
    [action.requestHeaders].  When that field is absent, [applyRule]
    returns the exchange with the input headers and an empty trace,
    whatever [responseHeaders] lists; and the result of
    [applyHeaderModifications] never depends on [responseHeaders]. *)
Theorem applyRule_requestHeaders_absent
    (H : Host) (rule : Rule (RegExp H)) (request : RequestInfo)
    (a : HeaderModification) :
  action rule = ModifyHeaders a →
  requestHeaders a = None →
  applyRule H rule request
  = {| m_url := url request; m_method := method request;
       m_headers := headers request; m_body := body request;
       modifications := [] |}
  ∧ ∀ others modified,
      applyHeaderModifications H
        {| requestHeaders := requestHeaders a; responseHeaders := others |} modified
      = applyHeaderModifications H a modified.
Proof.
  intros Ha Hnone. split.
  - unfold applyRule, applyHeaderModifications. by rewrite Ha, Hnone.
  - reflexivity.
Qed.

Lemma applyRule_requestHeaders_absent_witness :
  action (Samples.rule (ModifyHeaders Samples.responseOnly))
  = ModifyHeaders Samples.responseOnly
  ∧ requestHeaders Samples.responseOnly = None
  ∧ m_headers (applyRule SampleHost.host
                 (Samples.rule (ModifyHeaders Samples.responseOnly)) Samples.request)
    = headers Samples.request
  ∧ modifications (applyRule SampleHost.host
                     (Samples.rule (ModifyHeaders Samples.responseOnly))
                     Samples.request)
    = [].
Proof.
  split; [reflexivity|]. split; [reflexivity|].
  destruct (applyRule_requestHeaders_absent SampleHost.host
              (Samples.rule (ModifyHeaders Samples.responseOnly))
              Samples.request Samples.responseOnly eq_refl eq_refl) as [-> _].
  split; reflexivity.
Defined.

End HeaderModificationClaims.

(** ** URL redirection *)

Section Redirection.

Import RuleEngine.

Context (H : Host).

Lemma applyURLRedirection_frame action modified request :
  m_method (applyURLRedirection H action modified request) = m_method modified
  ∧ m_body (applyURLRedirection H action modified request) = m_body modified
  ∧ m_headers (applyURLRedirection H action modified request) = m_headers modified.
Proof.
  unfold applyURLRedirection.
  by destruct (redirectedURL H action request).
Qed.

Lemma redirectedURL_candidate action request :
  redirectedURL H action request
  = (let! newURL := Spec.candidateURLNonEmpty H action request in
     match new_URL H newURL with
     | Some message => Js.throw message
     | None => Js.ret newURL
     end).
Proof.
  unfold redirectedURL, Spec.candidateURLNonEmpty.
  destruct (regexSubstitution action) as [[|c s]|]; reflexivity.
Qed.

(** C8: a redirection leaves the method and the body of the exchange as
    they were, whether the URL is replaced or kept. *)
Theorem applyRule_redirect_keeps_method_and_body
    (rule : Rule (RegExp H)) (request : RequestInfo) (a : URLRedirection) :
  action rule = Redirect a →
  m_method (applyRule H rule request) = method request
  ∧ m_body (applyRule H rule request) = body request
  ∧ (∀ newURL, redirectedURL H a request = inl newURL →
       m_url (applyRule H rule request) = newURL)
  ∧ (∀ message, redirectedURL H a request = inr message →
       m_url (applyRule H rule request) = url request).
Proof.
  intros Ha. unfold applyRule. rewrite Ha.
  set (modified := {| m_url := url request; m_method := method request;
                      m_headers := headers request; m_body := body request;
                      modifications := [] |}).
  destruct (applyURLRedirection_frame a modified request) as (Hm & Hb & _).
  split; [exact Hm|]. split; [exact Hb|].
  unfold applyURLRedirection.
  split; intros x Hx; rewrite Hx; reflexivity.
Qed.

(** C5, amended: when the candidate URL (the first match of the destination
    replaced by [regexSubstitution] when that field is present and not
    empty, otherwise the destination verbatim) does not parse, [applyRule]
    returns the exchange with its URL, headers and body as they were and the
    one trace entry ["Error: Invalid URL redirection - <message>"].
    [applyRule] is a total function: nothing is thrown out of it. *)
Theorem applyRule_invalid_redirection
    (rule : Rule (RegExp H)) (request : RequestInfo) (a : URLRedirection)
    (candidate message : string) :
  action rule = Redirect a →
  Spec.candidateURLNonEmpty H a request = inl candidate →
  new_URL H candidate = Some message →
  applyRule H rule request
  = {| m_url := url request; m_method := method request;
       m_headers := headers request; m_body := body request;
       modifications := ["Error: Invalid URL redirection - " +:+ message] |}.
Proof.
  intros Ha Hc Hinvalid. unfold applyRule, applyURLRedirection.
  rewrite Ha, redirectedURL_candidate, Hc. simpl. rewrite Hinvalid. reflexivity.
Qed.

End Redirection.

Lemma applyRule_redirect_keeps_method_and_body_witness :
  action (Samples.rule (Redirect Samples.notAURL)) = Redirect Samples.notAURL
  ∧ RuleEngine.m_method
      (RuleEngine.applyRule SampleHost.host (Samples.rule (Redirect Samples.notAURL))
         Samples.request)
    = RuleEngine.method Samples.request
  ∧ RuleEngine.m_body
      (RuleEngine.applyRule SampleHost.host (Samples.rule (Redirect Samples.notAURL))
         Samples.request)
    = RuleEngine.body Samples.request.
Proof.
  split; [reflexivity|].
  destruct (applyRule_redirect_keeps_method_and_body SampleHost.host
              (Samples.rule (Redirect Samples.notAURL)) Samples.request
              Samples.notAURL eq_refl) as (Hm & Hb & _).
  split; [exact Hm | exact Hb].
Defined.

Lemma applyRule_invalid_redirection_witness :
  action (Samples.rule (Redirect Samples.notAURL)) = Redirect Samples.notAURL
  ∧ Spec.candidateURLNonEmpty SampleHost.host Samples.notAURL Samples.request
    = inl "not a url"
  ∧ new_URL SampleHost.host "not a url" = Some "Invalid URL"
  ∧ RuleEngine.m_url
      (RuleEngine.applyRule SampleHost.host (Samples.rule (Redirect Samples.notAURL))
         Samples.request)
    = RuleEngine.url Samples.request.
Proof.
  split; [reflexivity|]. split; [reflexivity|]. split; [reflexivity|].
  rewrite (applyRule_invalid_redirection SampleHost.host
             (Samples.rule (Redirect Samples.notAURL)) Samples.request
             Samples.notAURL "not a url" "Invalid URL" eq_refl eq_refl eq_refl).
  reflexivity.
Defined.

(** C5, as stated, fails when [regexSubstitution] is present but empty:
    [if (action.regexSubstitution)] is then false and the destination is
    taken verbatim.  Removing [https://api.example.com] from the URL leaves
    the candidate [/v1/users], which does not parse, yet the exchange is
    redirected to the destination. *)
Lemma empty_substitution_redirects :
  let result :=
    RuleEngine.applyRule SampleHost.host (Samples.rule (Redirect Samples.stripHost))
      Samples.request in
  regexSubstitution Samples.stripHost = Some ""
  ∧ Spec.candidateURL SampleHost.host Samples.stripHost Samples.request
    = inl "/v1/users"
  ∧ new_URL SampleHost.host "/v1/users" = Some "Invalid URL"
  ∧ RuleEngine.m_url result = "https://api.example.com"
  ∧ RuleEngine.m_url result ≠ RuleEngine.url Samples.request
  ∧ RuleEngine.modifications result = ["Redirected to: https://api.example.com"].
Proof.
  intros result.
  split; [reflexivity|]. split; [vm_compute; reflexivity|].
  split; [vm_compute; reflexivity|].
  assert (Hurl : RuleEngine.m_url result = "https://api.example.com")
    by (vm_compute; reflexivity).
  split; [exact Hurl|]. split; [|vm_compute; reflexivity].
  rewrite Hurl. discriminate.
Qed.

(** ** Rule evaluation *)

Section Evaluation.

Import RuleEngine.

Lemma replace_each_app f (s t : string) :
  Js.replace_each f (s +:+ t) = Js.replace_each f s +:+ Js.replace_each f t.
Proof.
  induction s as [|c s IH]; simpl; [done|].
  rewrite IH. unfold String.app. 
  induction (f c) as [|d u IHu]; simpl; [done|]. by rewrite IHu.
Qed.

Lemma escape_then_expand_char (c : ascii) :
  expandStar (if regex_special c then String "\" (String c EmptyString)
              else String c EmptyString)
  = (if Ascii.eqb c "*" then ".*"
     else if bool_decide (c ∈ Spec.metacharacters)
          then String "\" (String c EmptyString)
          else String c EmptyString).
Proof.
  destruct c as [[] [] [] [] [] [] [] []]; vm_compute; reflexivity.
Qed.

Lemma wildcardSource_spec (pattern : string) :
  wildcardSource pattern = Spec.wildcardRegex pattern.
Proof.
  unfold wildcardSource, Spec.wildcardRegex. do 2 f_equal.
  unfold escapeSpecial.
  induction pattern as [|c r IH]; simpl; [done|].
  unfold expandStar in *. rewrite replace_each_app, IH.
  f_equal. apply escape_then_expand_char.
Qed.

(** C7: [evaluateRule] is false for a rule that is not enabled, whatever
    the URL.  For an enabled rule it is the test of the rule's regular
    expression on the URL, and for a wildcard string the test of the
    expression built by escaping every metacharacter but [*], replacing
    every [*] by [.*] and anchoring the whole between [^] and [$]. *)
Theorem evaluateRule_spec
    (H : Host) (rule : Rule (RegExp H)) (request : RequestInfo) :
  evaluateRule H rule request
  = if enabled rule then
      match urlPattern rule with
      | PRegExp re => Js.ret (RegExp_test H re (url request))
      | PString pattern =>
          let! regex := new_RegExp H (Spec.wildcardRegex pattern) in
          Js.ret (RegExp_test H regex (url request))
      end
    else Js.ret false.
Proof.
  unfold evaluateRule, matchesURLPattern.
  destruct (enabled rule); simpl; [|done].
  destruct (urlPattern rule) as [pattern|re]; [|done].
  by rewrite wildcardSource_spec.
Qed.

End Evaluation.

Example evaluateRule_wildcard_matches :
  Spec.wildcardRegex "https://*.example.com/*" = "^https://.*\.example\.com/.*$"
  ∧ RuleEngine.evaluateRule SampleHost.host
      (Samples.rule (Redirect Samples.notAURL)) Samples.request = inl true
  ∧ RuleEngine.evaluateRule SampleHost.host Samples.disabled Samples.request
    = inl false.
Proof. repeat split; vm_compute; reflexivity. Qed.

(** ** JSON path writes *)

Section JsonPath.

Import RuleEngine.

Import Js JsObject.

Context (H : Host).







Lemma get_member current key next :
  Spec.member current key = Some next → JsObject.get H current key = inl (inl next).
Proof.
  unfold JsObject.get. destruct current; simpl; try done.
  - destruct (Js.array_index key); [|done]. by intros ->.
  - by intros ->.
Qed.


Lemma parseInt_key_small part key index :
  arrayMatch part = Some (key, index) →
  Spec.smallIndex part = true →
  parseInt_key H index = Spec.indexName index.
Proof.
  unfold Spec.smallIndex, parseInt_key, Spec.indexName. intros -> Hsmall.
  by rewrite Hsmall.
Qed.






Lemma split_nonempty c path : Js.split c path ≠ [].
Proof.
  destruct path as [|a r]; simpl; [done|].
  destruct (Ascii.eqb a c); [done|]. by destruct (Js.split c r).
Qed.

Lemma pop_last {A} (l : list A) (d : A) :
  l ≠ [] → Js.pop l = Some (removelast l, List.last l d).
Proof.
  induction l as [|y l IH]; [done|]. intros _. simpl.
  destruct l as [|z l]; [done|]. by rewrite IH.
Qed.

Lemma removelast_last {A} (l : list A) (d : A) :
  l ≠ [] → l = (removelast l ++ [List.last l d])%list.
Proof. intros Hl. by apply app_removelast_last. Qed.

Lemma applyJSONPath_writePath (obj : Json) (path : string) (v : Json) :
  applyJSONPath H obj path v
  = writePath H obj (Spec.intermediateSegments path)
      (List.last (Js.split "." path) "") v.
Proof.
  unfold applyJSONPath. by rewrite (pop_last _ "" (split_nonempty "." path)).
Qed.


End JsonPath.



(** ** Logger: what is recorded *)

Section Recording.

Import Logger.

Lemma includes_existsb (l : list string) (x : string) :
  Js.includes l x = existsb (String.eqb x) l.
Proof.
  unfold Js.includes. induction l as [|y l IH]; simpl.
  - reflexivity.
  - destruct (String.eqb_spec x y) as [->|Hne]; simpl.
    + apply bool_decide_eq_true. by left.
    + rewrite <- IH. apply bool_decide_ext. rewrite elem_of_cons.
      split; [intros [Heq|Hin]; [done | exact Hin] | by right].
Qed.

Lemma sensitive_includes (key : string) :
  Js.includes SENSITIVE_HEADERS (Js.toLowerCase key) = Spec.sensitive key.
Proof. rewrite includes_existsb. reflexivity. Qed.

Lemma filterSensitiveData_lookup (u : string) (hs : gmap string string) (key : string) :
  filterSensitiveData u hs !! key = Spec.recorded u key (hs !! key).
Proof.
  unfold filterSensitiveData, Spec.recorded, Spec.redacted.
  destruct (Js.startsWith u "https://"); simpl.
  - destruct (String.eqb_spec key "__proto__") as [->|Hne].
    + by rewrite lookup_delete_eq.
    + rewrite lookup_delete_ne by done.
      rewrite map_lookup_imap. destruct (hs !! key) as [v|]; simpl; [|done].
      by rewrite sensitive_includes.
  - by destruct (hs !! key).
Qed.



Lemma extractModifications_flat {RegExp} (rules : list (Rule RegExp)) :
  extractModifications rules = flat_map describeRule rules.
Proof.
  unfold extractModifications.
  assert (Hgen : ∀ acc, foldl (λ mods rule, (mods ++ describeRule rule)%list) acc rules
                        = (acc ++ flat_map describeRule rules)%list).
  { induction rules as [|r rules IH]; intros acc; simpl.
    - by rewrite app_nil_r.
    - by rewrite IH, <- app_assoc. }
  apply Hgen.
Qed.

Lemma describeRule_length {RegExp} (rule : Rule RegExp) :
  length (describeRule rule) = Spec.clauses rule.
Proof.
  unfold describeRule, Spec.clauses.
  destruct (action rule) as [a| | |]; try reflexivity.
  by destruct (requestHeaders a), (responseHeaders a).
Qed.



(** C9: the [modifications] of the entry [logRequest] adds are the
    descriptions of the applied rules, in order, one string per action
    clause that is present.  A modifyHeaders rule has the string
    ["Modified request headers (<name>)"] exactly when its [requestHeaders]
    is present, an empty list included, and likewise
    ["Modified response headers (<name>)"] for [responseHeaders], in this
    order; a redirect rule has the one string
    ["Redirected to <destination> (<name>)"], a modifyBody rule
    ["Modified <target> body (<name>)"] and a mockResponse rule
    ["Mocked response with status <code> (<name>)"]. *)
Theorem logRequest_describes_present_clauses {RegExp}
    (now : Z) (request : RequestInfo) (appliedRules : list (Rule RegExp))
    (st : State) :
  (∃ e, last (logs (logRequest now request appliedRules st)) = Some e
        ∧ entry_modifications e = flat_map describeRule appliedRules
        ∧ length (entry_modifications e)
          = sum_list (map Spec.clauses appliedRules))
  ∧ ∀ rule : Rule RegExp,
      length (describeRule rule) = Spec.clauses rule
      ∧ match action rule with
        | ModifyHeaders a =>
            describeRule rule
            = (match requestHeaders a with
               | Some _ => ["Modified request headers (" +:+ name rule +:+ ")"]
               | None => []
               end
               ++ match responseHeaders a with
                  | Some _ => ["Modified response headers (" +:+ name rule +:+ ")"]
                  | None => []
                  end)%list
        | Redirect a =>
            describeRule rule
            = ["Redirected to " +:+ destination a +:+ " (" +:+ name rule +:+ ")"]
        | ModifyBody a =>
            describeRule rule
            = ["Modified "
               +:+ match target a with
                   | TargetRequest => "request"
                   | TargetResponse => "response"
                   end
               +:+ " body (" +:+ name rule +:+ ")"]
        | MockResponse a =>
            describeRule rule
            = ["Mocked response with status " +:+ Js.of_int (statusCode a)
               +:+ " (" +:+ name rule +:+ ")"]
        end
      ∧ ∀ a, action rule = ModifyHeaders a →
          (is_Some (requestHeaders a)
           ↔ "Modified request headers (" +:+ name rule +:+ ")" ∈ describeRule rule)
          ∧ (is_Some (responseHeaders a)
             ↔ "Modified response headers (" +:+ name rule +:+ ")"
               ∈ describeRule rule).
Proof.
  split.
  - eexists. unfold logRequest. simpl. rewrite last_snoc.
    split; [reflexivity|]. simpl. rewrite extractModifications_flat.
    split; [reflexivity|].
    induction appliedRules as [|r rules IH]; simpl; [done|].
    by rewrite length_app, describeRule_length, IH.
  - intros rule. split; [apply describeRule_length|]. split.
    { unfold describeRule. by destruct (action rule). }
    intros a Ha. unfold describeRule. rewrite Ha.
    destruct (requestHeaders a) as [rq|], (responseHeaders a) as [rs|]; simpl;
      split; split;
      rewrite ?elem_of_cons, ?elem_of_nil;
      try (intros _; eauto; fail);
      try (intros [? Hnone]; discriminate Hnone);
      try (intros [Heq|[Heq|[]]]; try discriminate Heq; eauto);
      try (intros [Heq|[]]; try discriminate Heq; eauto);
      try (intros []).
Qed.

End Recording.

(** ** Logger: retrieval and retention *)

Section Retrieval.

Import Logger.

Lemma sort_insert_perm {A} (cmp : A → A → Z) (x : A) (l : list A) :
  Permutation (Js.sort_insert cmp x l) (x :: l).
Proof.
  induction l as [|y l IH]; simpl; [done|].
  destruct (cmp x y <=? 0); [done|].
  rewrite IH. apply perm_swap.
Qed.

Lemma sort_perm {A} (cmp : A → A → Z) (l : list A) : Permutation (Js.sort cmp l) l.
Proof.
  unfold Js.sort. induction l as [|x l IH]; simpl; [done|].
  by rewrite sort_insert_perm, IH.
Qed.

Lemma sort_insert_sorted (x : LogEntry) (l : list LogEntry) :
  StronglySorted Spec.chronologically l →
  StronglySorted Spec.chronologically (Js.sort_insert chronological x l).
Proof.
  induction 1 as [|y l Hsorted IH Hall]; simpl.
  - by repeat constructor.
  - unfold chronological at 1.
    destruct (Z.leb_spec (entry_timestamp x - entry_timestamp y) 0) as [Hle|Hgt].
    + constructor; [by constructor|].
      constructor; [unfold Spec.chronologically; lia|].
      eapply Forall_impl; [exact Hall|].
      unfold Spec.chronologically. intros z Hz. simpl in Hz. lia.
    + constructor; [exact IH|].
      rewrite (sort_insert_perm chronological x l).
      constructor; [unfold Spec.chronologically; lia | exact Hall].
Qed.

Lemma sort_sorted (l : list LogEntry) :
  StronglySorted Spec.chronologically (Js.sort chronological l).
Proof.
  unfold Js.sort. induction l as [|x l IH]; simpl; [constructor|].
  by apply sort_insert_sorted.
Qed.

Lemma filter_twice {A} (p q : A → bool) (l : list A) :
  List.filter q (List.filter p l) = List.filter (λ x, p x && q x) l.
Proof.
  induction l as [|x l IH]; simpl; [done|].
  destruct (p x); simpl; [|done]. destruct (q x); by rewrite IH.
Qed.

Lemma has_status_decide (c : Z) (log : LogEntry) :
  has_status c log = bool_decide (entry_statusCode log = Some c).
Proof.
  unfold has_status. destruct (entry_statusCode log) as [c'|].
  - destruct (Z.eqb_spec c' c) as [->|Hne].
    + by rewrite bool_decide_eq_true_2.
    + rewrite bool_decide_eq_false_2; [done|]. by intros [= ?].
  - by rewrite bool_decide_eq_false_2.
Qed.

Lemma modified_is_eqb (b : bool) (log : LogEntry) :
  modified_is b log = Bool.eqb b (negb (length (entry_modifications log) =? 0)%nat).
Proof.
  unfold modified_is. by destruct b, (entry_modifications log).
Qed.

Lemma truthy_opt_nonEmpty (o : option string) :
  (Js.truthy_opt o = true ∧ Spec.nonEmpty o = Some (Js.or_empty o))
  ∨ (Js.truthy_opt o = false ∧ Spec.nonEmpty o = None).
Proof. destruct o as [[|c s]|]; simpl; auto. Qed.

Context (H : Host).

Lemma applyFilter_selects (f : LogFilter) (l : list LogEntry) :
  (∀ pattern, Spec.nonEmpty (filter_urlPattern f) = Some pattern →
              ∃ re, new_RegExp H pattern = inl re) →
  applyFilter H f l = inl (List.filter (Spec.satisfiesNonEmpty H f) l).
Proof.
  intros Hvalid. unfold applyFilter, Spec.satisfiesNonEmpty, Spec.satisfies. simpl.
  assert (Hurl : ∃ byUrl,
    (if Js.truthy_opt (filter_urlPattern f) then
       let! pattern := new_RegExp H (Js.or_empty (filter_urlPattern f)) in
       Js.ret (List.filter (λ log, RegExp_test H pattern (entry_url log)) l)
     else Js.ret l) = inl (List.filter byUrl l)
    ∧ ∀ log, byUrl log
             = match Spec.nonEmpty (filter_urlPattern f) with
               | Some pattern =>
                   match new_RegExp H pattern with
                   | inl re => RegExp_test H re (entry_url log)
                   | inr _ => false
                   end
               | None => true
               end).
  { destruct (truthy_opt_nonEmpty (filter_urlPattern f)) as [[-> Hn]|[-> Hn]];
      rewrite Hn.
    - destruct (Hvalid _ Hn) as [re Hre]. rewrite Hre. simpl.
      by exists (λ log, RegExp_test H re (entry_url log)).
    - exists (λ _, true). split; [|done].
      unfold Js.ret. f_equal. induction l as [|x l IH]; simpl; congruence. }
  destruct Hurl as (byUrl & -> & HbyUrl). simpl. unfold Js.ret. f_equal.
  set (byMethod := λ log : LogEntry,
         match Spec.nonEmpty (filter_method f) with
         | Some m => String.eqb (entry_method log) m
         | None => true
         end).
  assert (Hmethod :
    (if Js.truthy_opt (filter_method f)
     then List.filter
            (λ log, String.eqb (entry_method log) (Js.or_empty (filter_method f)))
            (List.filter byUrl l)
     else List.filter byUrl l)
    = List.filter (λ log, byUrl log && byMethod log) l).
  { unfold byMethod.
    destruct (truthy_opt_nonEmpty (filter_method f)) as [[-> Hn]|[-> Hn]];
      rewrite Hn.
    - by rewrite filter_twice.
    - apply List.filter_ext. intros log. by rewrite andb_true_r. }
  rewrite Hmethod. clear Hmethod.
  set (byStatus := λ log : LogEntry,
         match filter_statusCode f with
         | Some c => bool_decide (entry_statusCode log = Some c)
         | None => true
         end).
  assert (Hstatus :
    match filter_statusCode f with
    | Some c => List.filter (has_status c)
                  (List.filter (λ log, byUrl log && byMethod log) l)
    | None => List.filter (λ log, byUrl log && byMethod log) l
    end
    = List.filter (λ log, byUrl log && byMethod log && byStatus log) l).
  { unfold byStatus. destruct (filter_statusCode f) as [c|].
    - rewrite filter_twice. apply List.filter_ext. intros log.
      by rewrite has_status_decide.
    - apply List.filter_ext. intros log. by rewrite andb_true_r. }
  rewrite Hstatus. clear Hstatus.
  set (byMods := λ log : LogEntry,
         match filter_hasModifications f with
         | Some b => Bool.eqb b (negb (length (entry_modifications log) =? 0)%nat)
         | None => true
         end).
  assert (Hmods :
    match filter_hasModifications f with
    | Some b => List.filter (modified_is b)
                  (List.filter (λ log, byUrl log && byMethod log && byStatus log) l)
    | None => List.filter (λ log, byUrl log && byMethod log && byStatus log) l
    end
    = List.filter (λ log, byUrl log && byMethod log && byStatus log && byMods log) l).
  { unfold byMods. destruct (filter_hasModifications f) as [b|].
    - rewrite filter_twice. apply List.filter_ext. intros log.
      by rewrite modified_is_eqb.
    - apply List.filter_ext. intros log. by rewrite andb_true_r. }
  rewrite Hmods. clear Hmods.
  destruct (filter_dateRange f) as [[start finish]|].
  - rewrite filter_twice. apply List.filter_ext. intros log.
    unfold within, byMods, byStatus, byMethod. simpl. by rewrite HbyUrl.
  - apply List.filter_ext. intros log.
    unfold byMods, byStatus, byMethod. by rewrite HbyUrl, andb_true_r.
Qed.

(** C3, amended: for a filter whose [urlPattern], when supplied and not
    empty, is a valid regular expression, [getLogs] returns exactly the
    stored entries that satisfy all the supplied predicates together (the
    [urlPattern] tested as a regular expression on the url, [method] and
    [statusCode] by equality, [hasModifications] true exactly when the
    list of modifications is not empty, [dateRange] inclusive at both
    ends), an absent field, and an empty [urlPattern] or [method], imposing
    no constraint; the list returned is sorted by ascending timestamp
    whatever the order of insertion. *)
Theorem getLogs_selects_and_sorts (f : option LogFilter) (st : State) :
  (∀ flt pattern,
     f = Some flt → Spec.nonEmpty (filter_urlPattern flt) = Some pattern →
     ∃ re, new_RegExp H pattern = inl re) →
  ∃ result,
    getLogs H f st = inl result
    ∧ Permutation result (List.filter (Spec.selected H f) (logs st))
    ∧ StronglySorted Spec.chronologically result
    ∧ ∀ e, e ∈ result ↔ e ∈ logs st ∧ Spec.selected H f e = true.
Proof.
  intros Hvalid.
  assert (Hfiltered :
    match f with
    | Some f => applyFilter H f (logs st)
    | None => Js.ret (logs st)
    end = inl (List.filter (Spec.selected H f) (logs st))).
  { destruct f as [flt|]; simpl.
    - apply applyFilter_selects. intros pattern Hp. by eapply Hvalid.
    - unfold Js.ret. f_equal. induction (logs st) as [|x l IH]; simpl; congruence. }
  exists (Js.sort chronological (List.filter (Spec.selected H f) (logs st))).
  split; [unfold getLogs; by rewrite Hfiltered|].
  split; [apply sort_perm|]. split; [apply sort_sorted|].
  intros e. rewrite (sort_perm chronological), list_elem_of_In, List.filter_In.
  by rewrite <- list_elem_of_In.
Qed.

End Retrieval.

Lemma getLogs_selects_and_sorts_witness :
  (∀ flt pattern,
     Some Samples.byPattern = Some flt →
     Spec.nonEmpty (filter_urlPattern flt) = Some pattern →
     ∃ re, new_RegExp SampleHost.host pattern = inl re)
  ∧ ∃ result,
      Logger.getLogs SampleHost.host (Some Samples.byPattern) Samples.unordered
      = inl result
      ∧ Permutation result
          (List.filter (Spec.selected SampleHost.host (Some Samples.byPattern))
             (Logger.logs Samples.unordered))
      ∧ StronglySorted Spec.chronologically result
      ∧ ∀ e, e ∈ result
             ↔ e ∈ Logger.logs Samples.unordered
               ∧ Spec.selected SampleHost.host (Some Samples.byPattern) e = true.
Proof.
  assert (Hvalid : ∀ flt pattern,
     Some Samples.byPattern = Some flt →
     Spec.nonEmpty (filter_urlPattern flt) = Some pattern →
     ∃ re, new_RegExp SampleHost.host pattern = inl re).
  { intros flt pattern [= <-] [= <-]. eexists. vm_compute. reflexivity. }
  split; [exact Hvalid|].
  exact (getLogs_selects_and_sorts SampleHost.host (Some Samples.byPattern)
           Samples.unordered Hvalid).
Defined.

Example getLogs_byPattern :
  Logger.getLogs SampleHost.host (Some Samples.byPattern) Samples.unordered
  = inl [Samples.older]
  ∧ Logger.getLogs SampleHost.host None Samples.unordered
    = inl [Samples.older; Samples.newer].
Proof. split; vm_compute; reflexivity. Qed.

(** C3, as stated, fails on a filter whose [method] is the empty string:
    [if (filter.method)] is then false, so the entries are not compared
    with it and all of them are returned, none of which has the method
    [""]. *)
Lemma empty_method_imposes_no_constraint :
  filter_method Samples.emptyMethod = Some ""
  ∧ Logger.getLogs SampleHost.host (Some Samples.emptyMethod) Samples.unordered
    = inl [Samples.older; Samples.newer]
  ∧ List.filter (Spec.satisfies SampleHost.host Samples.emptyMethod)
      (Logger.logs Samples.unordered) = [].
Proof. repeat split; vm_compute; reflexivity. Qed.

Lemma sort_chronological_id (l : list LogEntry) :
  StronglySorted Spec.chronologically l → Js.sort Logger.chronological l = l.
Proof.
  unfold Js.sort. induction 1 as [|x l Hsorted IH Hall]; simpl; [done|].
  rewrite IH. destruct Hall as [|y l Hxy _]; simpl; [done|].
  unfold Logger.chronological, Spec.chronologically in *.
  destruct (Z.leb_spec (entry_timestamp x - entry_timestamp y) 0); [done | lia].
Qed.

Lemma filter_chronological (p : LogEntry → bool) (l : list LogEntry) :
  StronglySorted Spec.chronologically l →
  StronglySorted Spec.chronologically (List.filter p l).
Proof.
  induction 1 as [|x l Hsorted IH Hall]; simpl; [constructor|].
  destruct (p x); [|exact IH]. constructor; [exact IH|].
  apply List.Forall_forall. intros y [Hy _]%List.filter_In.
  by eapply List.Forall_forall in Hall.
Qed.

(** Where the two meet: on a list stored in chronological order, with
    room for at least one entry, and where moving the calendar date back
    moves the time back by that many times 24 hours,
    [applyRetentionPolicy] leaves what the policy of the specification
    retains. *)
Lemma applyRetentionPolicy_on_chronological_store
    (tz : TimeZone) (now retentionDays maxEntries : Z) (st : Logger.State) :
  Logger.cutoffDate tz now retentionDays = Some (now - retentionDays * 86400000) →
  StronglySorted Spec.chronologically (Logger.logs st) →
  0 < maxEntries →
  Logger.logs (Logger.applyRetentionPolicy tz now retentionDays maxEntries st)
  = Spec.retained now retentionDays maxEntries (Logger.logs st).
Proof.
  intros Hcutoff Hsorted Hroom.
  unfold Logger.applyRetentionPolicy, Spec.retained. rewrite Hcutoff. simpl.
  set (kept := List.filter _ (Logger.logs st)).
  rewrite (sort_chronological_id kept) by by apply filter_chronological.
  destruct (Z.ltb_spec maxEntries (Z.of_nat (length kept))) as [Hlt|Hge]; [|done].
  unfold Js.slice.
  destruct (Z.ltb_spec (- maxEntries) 0) as [_|?]; [|lia].
  f_equal. lia.
Qed.

(** C2 on a list stored out of chronological order, in universal time:
    with room for one entry, [applyRetentionPolicy] keeps the entry stored
    last, which is the older one, where the policy of the specification
    keeps the more recent one; and with room for none, [slice(-0)] keeps
    every entry. *)
Theorem applyRetentionPolicy_keeps_last_stored :
  Logger.logs Samples.unordered = [Samples.newer; Samples.older]
  ∧ entry_timestamp Samples.older < entry_timestamp Samples.newer
  ∧ Logger.logs (Logger.applyRetentionPolicy SampleHost.utc 5000 7 1
                   Samples.unordered)
    = [Samples.older]
  ∧ Spec.retained 5000 7 1 (Logger.logs Samples.unordered) = [Samples.newer]
  ∧ Logger.logs (Logger.applyRetentionPolicy SampleHost.utc 5000 7 0
                   Samples.unordered)
    = [Samples.newer; Samples.older]
  ∧ Spec.retained 5000 7 0 (Logger.logs Samples.unordered) = [].
Proof. repeat split; vm_compute; reflexivity. Qed.


(** ** The examples of the specification *)

Example logRequest_filters_authorization :
  ∃ e, last (Logger.logs (Logger.logRequest 3000 Samples.loggedRequest
                            Samples.noRules Logger.empty)) = Some e
       ∧ entry_requestHeaders e !! "Authorization" = Some "[FILTERED]"
       ∧ entry_requestHeaders e !! "Accept" = Some "text/html".
Proof. eexists. repeat split; vm_compute; reflexivity. Qed.

Example describeRule_empty_requestHeaders :
  Logger.describeRule (Samples.rule (ModifyHeaders Samples.emptyClauses))
  = ["Modified request headers (sample)"]
  ∧ Logger.describeRule (Samples.rule (ModifyHeaders Samples.responseOnly))
    = ["Modified response headers (sample)"]
  ∧ Logger.describeRule (Samples.rule (Redirect Samples.notAURL))
    = ["Redirected to not a url (sample)"].
Proof. repeat split; vm_compute; reflexivity. Qed.

Example applyRule_sets_header :
  RuleEngine.applyRule SampleHost.host
    (Samples.rule
       (ModifyHeaders
          (Samples.headerAction
             [{| operation := OpSet; header := "X-Test"; value := Some "v" |}])))
    Samples.request
  = {| RuleEngine.m_url := RuleEngine.url Samples.request;
       RuleEngine.m_method := "POST";
       RuleEngine.m_headers := <["X-Test" := "v"]> (RuleEngine.headers Samples.request);
       RuleEngine.m_body := RuleEngine.body Samples.request;
       RuleEngine.modifications := ["Set header: X-Test = v"] |}.
Proof. vm_compute. reflexivity. Qed.


(** ** Sorting by a key *)

Section SortByKey.

Context {A : Type} (key : A → Z) (cmp : A → A → Z).
Hypothesis cmp_key : ∀ a b, cmp a b <= 0 ↔ key a <= key b.

Lemma sort_insert_by_key_sorted (x : A) (l : list A) :
  StronglySorted (Spec.ascending key) l → StronglySorted (Spec.ascending key) (Js.sort_insert cmp x l).
Proof.
  induction 1 as [|y l Hsorted IH Hall]; simpl.
  - by repeat constructor.
  - destruct (Z.leb_spec (cmp x y) 0) as [Hle|Hgt].
    + apply cmp_key in Hle.
      constructor; [by constructor|].
      constructor; [exact Hle|].
      eapply Forall_impl; [exact Hall|].
      unfold Spec.ascending. intros z Hz. simpl in Hz. lia.
    + assert (key y <= key x).
      { destruct (Z.le_gt_cases (key x) (key y)) as [Hxy|Hxy]; [|lia].
        apply cmp_key in Hxy. lia. }
      constructor; [exact IH|].
      rewrite (sort_insert_perm cmp x l). by constructor.
Qed.

Lemma sort_by_key_sorted (l : list A) : StronglySorted (Spec.ascending key) (Js.sort cmp l).
Proof.
  unfold Js.sort. induction l as [|x l IH]; simpl; [constructor|].
  by apply sort_insert_by_key_sorted.
Qed.

Lemma sort_insert_by_key_stable (k : Z) (x : A) (l : list A) :
  List.filter (λ a, key a =? k) (Js.sort_insert cmp x l)
  = List.filter (λ a, key a =? k) (x :: l).
Proof.
  induction l as [|y l IH]; [done|]. simpl in *.
  destruct (Z.leb_spec (cmp x y) 0) as [Hle|Hgt]; [done|].
  assert (key x ≠ key y).
  { intros Heq. assert (key x <= key y) as Hxy%cmp_key by lia. lia. }
  simpl. rewrite IH.
  destruct (Z.eqb_spec (key y) k), (Z.eqb_spec (key x) k); try done; congruence.
Qed.

Lemma sort_by_key_stable (k : Z) (l : list A) :
  List.filter (λ a, key a =? k) (Js.sort cmp l) = List.filter (λ a, key a =? k) l.
Proof.
  unfold Js.sort. induction l as [|x l IH]; [done|]. simpl foldr.
  rewrite sort_insert_by_key_stable. simpl. by rewrite IH.
Qed.

Lemma sort_by_key_id (l : list A) :
  StronglySorted (Spec.ascending key) l → Js.sort cmp l = l.
Proof.
  unfold Js.sort. induction 1 as [|x l Hsorted IH Hall]; simpl; [done|].
  rewrite IH. destruct Hall as [|y l Hxy _]; simpl; [done|].
  apply cmp_key in Hxy. by destruct (Z.leb_spec (cmp x y) 0); [|lia].
Qed.

Lemma sort_by_key_head (l : list A) (r : A) (rest : list A) :
  Js.sort cmp l = r :: rest →
  Forall (λ a, key r <= key a) l
  ∧ ∃ before after,
      l = (before ++ r :: after)%list ∧ Forall (λ a, key r < key a) before.
Proof.
  revert r rest. unfold Js.sort.
  induction l as [|x l IH]; intros r rest; simpl; [done|].
  destruct (foldr (Js.sort_insert cmp) [] l) as [|y s] eqn:Hsort.
  - assert (l = []) as ->.
    { apply Permutation_nil. rewrite <- Hsort. apply (sort_perm cmp). }
    simpl. intros [= <- <-]. split; [constructor; [lia | constructor]|].
    by exists [], [].
  - destruct (IH y s eq_refl) as (Hmin & before & after & -> & Hbefore).
    simpl. destruct (Z.leb_spec (cmp x y) 0) as [Hle|Hgt].
    + apply cmp_key in Hle. intros [= <- <-]. split.
      * constructor; [lia|]. eapply Forall_impl; [exact Hmin|].
        intros a Ha. simpl in Ha. lia.
      * by exists [], (before ++ y :: after)%list.
    + assert (key y < key x).
      { destruct (Z.le_gt_cases (key x) (key y)) as [Hxy|Hxy]; [|lia].
        apply cmp_key in Hxy. lia. }
      intros [= <- <-]. split.
      * constructor; [lia | exact Hmin].
      * exists (x :: before), after. split; [done|]. by constructor.
Qed.

End SortByKey.

(** ** Priorities *)

Section Priorities.

Import RuleEngine.

Context (H : Host).

Lemma priority_key (a b : Rule (RegExp H)) :
  priority b - priority a <= 0 ↔ - priority a <= - priority b.
Proof. lia. Qed.

Lemma StronglySorted_impl {A} (R R' : A → A → Prop) (l : list A) :
  (∀ a b, R a b → R' a b) → StronglySorted R l → StronglySorted R' l.
Proof.
  intros HR. induction 1 as [|x l Hsorted IH Hall]; constructor; [done|].
  eapply Forall_impl; [exact Hall | auto].
Qed.

(** X1: [sortByPriority] returns the rules in descending order of
    priority, losing and adding none; rules of equal priority keep the
    order they came in; and sorting again changes nothing. *)
Theorem sortByPriority_descending_stable (rules : list (Rule (RegExp H))) :
  Permutation (sortByPriority H rules) rules
  ∧ StronglySorted (λ a b, priority b <= priority a) (sortByPriority H rules)
  ∧ (∀ p, List.filter (λ r, priority r =? p) (sortByPriority H rules)
          = List.filter (λ r, priority r =? p) rules)
  ∧ sortByPriority H (sortByPriority H rules) = sortByPriority H rules.
Proof.
  unfold sortByPriority.
  pose proof (sort_by_key_sorted (λ r : Rule (RegExp H), - priority r) _
                priority_key rules) as Hsorted.
  split; [apply sort_perm|]. split; [|split].
  - eapply StronglySorted_impl; [|exact Hsorted].
    unfold Spec.ascending. intros a b. lia.
  - intros p.
    assert (Hneg : ∀ r : Rule (RegExp H),
              (priority r =? p) = (- priority r =? - p)).
    { intros r.
      destruct (Z.eqb_spec (priority r) p), (Z.eqb_spec (- priority r) (- p));
        try done; lia. }
    rewrite !(List.filter_ext _ _ Hneg).
    apply (sort_by_key_stable (λ r : Rule (RegExp H), - priority r) _ priority_key).
  - by apply (sort_by_key_id (λ r : Rule (RegExp H), - priority r) _ priority_key).
Qed.

Lemma filterM_accepted {A} (f : A → Js.Exn bool) (l m : list A) :
  Js.filterM f l = inl m → m = List.filter (Spec.accepted f) l.
Proof.
  revert m. induction l as [|x l IH]; intros m; simpl.
  - by intros [= <-].
  - unfold Spec.accepted at 1. destruct (f x) as [keep|]; simpl; [|done].
    destruct (Js.filterM f l) as [m'|]; simpl; [|done].
    intros [= <-]. rewrite (IH m' eq_refl). by destruct keep.
Qed.

Lemma filter_split {A} (g : A → bool) (l b a : list A) (r : A) :
  List.filter g l = (b ++ r :: a)%list →
  ∃ before after,
    l = (before ++ r :: after)%list ∧ List.filter g before = b
    ∧ List.filter g after = a ∧ g r = true.
Proof.
  revert b. induction l as [|x l IH]; intros b; simpl.
  - by destruct b.
  - destruct (g x) eqn:Hx.
    + destruct b as [|y b]; simpl.
      * intros [= -> <-]. by exists [], l.
      * intros [= <- Hrest].
        destruct (IH b Hrest) as (before & after & -> & <- & <- & Hr).
        exists (x :: before), after. simpl. by rewrite Hx.
    + intros Hrest. destruct (IH b Hrest) as (before & after & -> & <- & <- & Hr).
      exists (x :: before), after. simpl. by rewrite Hx.
Qed.

Lemma matchesFallback_needsFallback u m (r : Rule (RegExp H)) :
  ServiceWorker.matchesFallback H u m r = inl true →
  ServiceWorker.needsFallback r = true.
Proof.
  unfold ServiceWorker.matchesFallback, ServiceWorker.needsFallback.
  destruct (enabled r); simpl; [|done]. by destruct (action r).
Qed.

(** X2: the rule the [onBeforeRequest] listener applies is an enabled
    modifyBody or mockResponse rule that matches the URL; no matching rule
    has a higher priority, and among the matching rules of its priority it
    is the first of the active rules. *)
Theorem appliedRule_first_of_highest_priority
    (activeRules : list (Rule (RegExp H))) (u m : string) (r : Rule (RegExp H)) :
  ServiceWorker.appliedRule H activeRules u m = inl (Some r) →
  ∃ before after,
    activeRules = (before ++ r :: after)%list
    ∧ ServiceWorker.matchesFallback H u m r = inl true
    ∧ ServiceWorker.needsFallback r = true
    ∧ Forall (λ r', ServiceWorker.matchesFallback H u m r' = inl true →
                    priority r' < priority r) before
    ∧ Forall (λ r', ServiceWorker.matchesFallback H u m r' = inl true →
                    priority r' <= priority r) after.
Proof.
  unfold ServiceWorker.appliedRule, ServiceWorker.matchingRules.
  destruct (Js.filterM _ activeRules) as [matching|] eqn:Hfilter; simpl; [|done].
  apply filterM_accepted in Hfilter.
  unfold sortByPriority.
  destruct (Js.sort _ matching) as [|top rest] eqn:Hsort; simpl; [done|].
  intros [= ->].
  apply (sort_by_key_head (λ r : Rule (RegExp H), - priority r) _ priority_key)
    in Hsort as (Hmax & b & a & Hmatching & Hb).
  rewrite Hmatching in Hfilter. symmetry in Hfilter.
  apply filter_split in Hfilter as (before & after & -> & <- & <- & Hr).
  assert (Hmatch : ServiceWorker.matchesFallback H u m r = inl true).
  { unfold Spec.accepted in Hr.
    by destruct (ServiceWorker.matchesFallback H u m r) as [[]|]. }
  exists before, after. split; [done|]. split; [exact Hmatch|].
  split; [by eapply matchesFallback_needsFallback|].
  rewrite Hmatching in Hmax. apply Forall_app in Hmax as [_ Hmax].
  apply Forall_cons in Hmax as [_ Hafter].
  rewrite List.Forall_forall in Hb. rewrite List.Forall_forall in Hafter.
  split; apply List.Forall_forall; intros r' Hin Hr';
    [specialize (Hb r') | specialize (Hafter r')].
  - simpl in Hb. cut (- priority r < - priority r'); [lia|]. apply Hb.
    apply List.filter_In. split; [exact Hin|]. unfold Spec.accepted. by rewrite Hr'.
  - simpl in Hafter. cut (- priority r <= - priority r'); [lia|]. apply Hafter.
    apply List.filter_In. split; [exact Hin|]. unfold Spec.accepted. by rewrite Hr'.
Qed.

End Priorities.

Lemma appliedRule_first_of_highest_priority_witness :
  ServiceWorker.appliedRule SampleHost.host Samples.activeRules
    "https://api.example.com/v1/users" "GET"
  = inl (Some (Samples.ruleWith "8" 5 true Samples.mock))
  ∧ ∃ before after,
      Samples.activeRules
      = (before ++ Samples.ruleWith "8" 5 true Samples.mock :: after)%list
      ∧ ServiceWorker.matchesFallback SampleHost.host
          "https://api.example.com/v1/users" "GET"
          (Samples.ruleWith "8" 5 true Samples.mock) = inl true
      ∧ ServiceWorker.needsFallback (Samples.ruleWith "8" 5 true Samples.mock) = true
      ∧ Forall (λ r', ServiceWorker.matchesFallback SampleHost.host
                        "https://api.example.com/v1/users" "GET" r' = inl true →
                      priority r' < priority (Samples.ruleWith "8" 5 true Samples.mock))
          before
      ∧ Forall (λ r', ServiceWorker.matchesFallback SampleHost.host
                        "https://api.example.com/v1/users" "GET" r' = inl true →
                      priority r' <= priority (Samples.ruleWith "8" 5 true Samples.mock))
          after.
Proof.
  assert (Happlied :
    ServiceWorker.appliedRule SampleHost.host Samples.activeRules
      "https://api.example.com/v1/users" "GET"
    = inl (Some (Samples.ruleWith "8" 5 true Samples.mock)))
    by (vm_compute; reflexivity).
  split; [exact Happlied|].
  exact (appliedRule_first_of_highest_priority SampleHost.host Samples.activeRules
           "https://api.example.com/v1/users" "GET"
           (Samples.ruleWith "8" 5 true Samples.mock) Happlied).
Defined.

(** ** Conversion to declarative rules *)

Section Conversion.

Import RuleEngine.

Context {H : Host} (B : Browser H).

(** X3: [convertToDeclarativeRules] gives, in the order of the rules, one
    declarative rule for each enabled modifyHeaders or redirect rule and
    none for a disabled, modifyBody or mockResponse rule.  Each carries the
    priority and the pattern of its rule; a header rule carries its request
    and response operations as they are, restricted names included, and a
    redirect rule its destination, whether or not it has a
    [regexSubstitution]. *)
Theorem convertToDeclarativeRules_spec (rules : list (Rule (RegExp H))) :
  map Spec.withoutId (convertToDeclarativeRules B rules)
  = omap (λ rule, (λ act, (priority rule, act, declarativeFilter B rule,
                           [Chrome.MAIN_FRAME])) <$> Spec.declarativeAction rule)
      rules.
Proof.
  unfold convertToDeclarativeRules. generalize 0%nat.
  induction rules as [|rule rules IH]; intros draws; simpl; [done|].
  unfold Spec.declarativeAction at 1.
  destruct (enabled rule); simpl; [|apply IH].
  destruct (action rule); simpl; rewrite ?IH; done.
Qed.

Lemma convertFrom_length (rules : list (Rule (RegExp H))) : ∀ draws,
  (length (convertFrom B draws rules)
   + length (List.filter ServiceWorker.needsFallback rules)
   = length (List.filter enabled rules))%nat.
Proof.
  induction rules as [|rule rules IH]; intros draws; simpl; [done|].
  unfold ServiceWorker.needsFallback at 1.
  destruct (enabled rule); simpl; [|apply IH].
  destruct (action rule); simpl;
    pose proof (IH draws); pose proof (IH (snd (declarativeId B rule draws))); lia.
Qed.

(** X4: every enabled rule takes exactly one of the two ways: it is
    converted to a declarative rule, or it is one of those that make
    [needsWebRequestFallback] true.  So all enabled rules are converted
    exactly when [needsWebRequestFallback] is false. *)
Theorem enabled_rules_converted_or_fallback (rules : list (Rule (RegExp H))) :
  (length (convertToDeclarativeRules B rules)
   + length (List.filter ServiceWorker.needsFallback rules)
   = length (List.filter enabled rules))%nat
  ∧ (ServiceWorker.needsWebRequestFallback rules = false
     ↔ length (convertToDeclarativeRules B rules)
       = length (List.filter enabled rules)).
Proof.
  pose proof (convertFrom_length rules 0) as Hlen.
  split; [exact Hlen|].
  unfold ServiceWorker.needsWebRequestFallback, convertToDeclarativeRules.
  assert (Hnone : existsb ServiceWorker.needsFallback rules = false
                  ↔ List.filter ServiceWorker.needsFallback rules = []).
  { clear Hlen. induction rules as [|r rules IH]; simpl; [done|].
    destruct (ServiceWorker.needsFallback r); simpl; [done | exact IH]. }
  rewrite Hnone. split.
  - intros Hnil. rewrite Hnil in Hlen. simpl in Hlen. lia.
  - intros Heq. apply length_zero_iff_nil. lia.
Qed.

Lemma convertFrom_app (l1 l2 : list (Rule (RegExp H))) : ∀ draws,
  ∃ draws', convertFrom B draws (l1 ++ l2)
            = (convertFrom B draws l1 ++ convertFrom B draws' l2)%list.
Proof.
  induction l1 as [|rule l1 IH]; intros draws; simpl; [by exists draws|].
  destruct (enabled rule); simpl; [|apply IH].
  destruct (action rule); simpl;
    try (destruct (IH (snd (declarativeId B rule draws))) as [draws' ->];
         by exists draws');
    apply IH.
Qed.

(** X5: a converted rule is found again by its declarative id.  When the id
    of an enabled modifyHeaders or redirect rule parses as a non-zero
    integer that no earlier active rule parses to, the declarative rule made
    from it has that integer as its id, and the lookup of the
    [onRuleMatchedDebug] listener with that id returns the rule. *)
Theorem matchedRule_finds_converted_rule
    (before after : list (Rule (RegExp H))) (rule : Rule (RegExp H))
    (n : Z) (act : Chrome.Action) :
  parseInt B (id rule) = Some n →
  n ≠ 0 →
  Forall (λ r, parseInt B (id r) ≠ Some n) before →
  Spec.declarativeAction rule = Some act →
  ∃ d, In d (convertToDeclarativeRules B (before ++ rule :: after))
       ∧ Chrome.rule_id d = n
       ∧ Chrome.rule_action d = act
       ∧ ServiceWorker.matchedRule B (before ++ rule :: after) (Chrome.rule_id d)
         = Some rule.
Proof.
  intros Hparse Hn Hfresh Hact.
  assert (Hfind : ServiceWorker.matchedRule B (before ++ rule :: after) n = Some rule).
  { unfold ServiceWorker.matchedRule.
    induction Hfresh as [|r before Hr _ IH]; simpl.
    - by rewrite Hparse, Z.eqb_refl.
    - destruct (parseInt B (id r)) as [k|]; [|exact IH].
      destruct (Z.eqb_spec k n) as [->|_]; [done | exact IH]. }
  unfold convertToDeclarativeRules.
  destruct (convertFrom_app before (rule :: after) 0) as [draws ->].
  unfold Spec.declarativeAction in Hact. simpl.
  assert (Hid : fst (declarativeId B rule draws) = n).
  { unfold declarativeId. rewrite Hparse.
    by destruct (Z.eqb_spec n 0). }
  destruct (enabled rule); [|done].
  destruct (action rule) as [a|a| |]; try done; injection Hact as <-.
  - exists (convertHeaderRule B rule a draws).
    split; [apply in_or_app; right; by left|].
    simpl. rewrite Hid. by repeat split.
  - exists (convertRedirectRule B rule a draws).
    split; [apply in_or_app; right; by left|].
    simpl. rewrite Hid. by repeat split.
Qed.

End Conversion.

Lemma matchedRule_finds_converted_rule_witness :
  parseInt SampleBrowser.browser
    (id (Samples.ruleWith "7" 1 true
           (ModifyHeaders (Samples.headerAction Samples.headerOps)))) = Some 7
  ∧ 7 ≠ 0
  ∧ Forall (λ r : Rule SampleHost.Regex,
              parseInt SampleBrowser.browser (id r) ≠ Some 7) []
  ∧ ∃ d, In d (RuleEngine.convertToDeclarativeRules SampleBrowser.browser
                 Samples.activeRules)
         ∧ Chrome.rule_id d = 7
         ∧ Chrome.rule_action d = Chrome.MODIFY_HEADERS Samples.headerOps []
         ∧ ServiceWorker.matchedRule SampleBrowser.browser Samples.activeRules
             (Chrome.rule_id d)
           = Some (Samples.ruleWith "7" 1 true
                     (ModifyHeaders (Samples.headerAction Samples.headerOps))).
Proof.
  split; [vm_compute; reflexivity|]. split; [lia|]. split; [constructor|].
  apply (matchedRule_finds_converted_rule SampleBrowser.browser []
           (tail Samples.activeRules)
           (Samples.ruleWith "7" 1 true
              (ModifyHeaders (Samples.headerAction Samples.headerOps)))
           7 (Chrome.MODIFY_HEADERS Samples.headerOps [])).
  - vm_compute; reflexivity.
  - lia.
  - constructor.
  - reflexivity.
Defined.

(** ** Successful JSON path writes *)

Section JsonPathWrites.

Import RuleEngine.

Lemma assoc_replace_prop key y props x :
  JsObject.assoc key props = Some x →
  JsObject.assoc key (JsObject.replace_prop key y props) = Some y.
Proof.
  induction props as [|[k w] props IH]; simpl; [done|].
  destruct (String.eqb_spec k key) as [->|Hne]; simpl.
  - by rewrite String.eqb_refl.
  - destruct (String.eqb_spec k key); [done | exact IH].
Qed.

Lemma assoc_replace_prop_ne key key' y props :
  key' ≠ key →
  JsObject.assoc key' (JsObject.replace_prop key y props) = JsObject.assoc key' props.
Proof.
  intros Hne. induction props as [|[k w] props IH]; simpl; [done|].
  destruct (String.eqb_spec k key) as [->|Hk]; simpl.
  - by destruct (String.eqb_spec key key').
  - by rewrite IH.
Qed.

Lemma assoc_add_prop key y props :
  JsObject.assoc key props = None →
  JsObject.assoc key (JsObject.add_prop key y props) = Some y.
Proof.
  induction props as [|[k w] props IH]; simpl.
  - by rewrite String.eqb_refl.
  - destruct (String.eqb_spec k key) as [->|Hk]; [done|]. intros Hnone.
    destruct (Js.array_index key), (Js.array_index k); simpl;
      try destruct (_ <? _)%N; simpl;
      rewrite ?String.eqb_refl; try done;
      destruct (String.eqb_spec k key); try done; by apply IH.
Qed.

Lemma assoc_add_prop_ne key key' y props :
  key' ≠ key →
  JsObject.assoc key' (JsObject.add_prop key y props) = JsObject.assoc key' props.
Proof.
  intros Hne. induction props as [|[k w] props IH]; simpl.
  - by destruct (String.eqb_spec key key').
  - destruct (Js.array_index key), (Js.array_index k); simpl;
      try destruct (_ <? _)%N; simpl;
      destruct (String.eqb_spec key key'); try done;
      destruct (String.eqb_spec k key'); try done; by rewrite IH.
Qed.

Lemma array_index_of_index key i : Js.array_index key = Some i → key = Js.of_index i.
Proof.
  unfold Js.array_index.
  destruct (String.list_ascii_of_string key); [done|].
  destruct (forallb _ _); [|done].
  destruct (String.eqb_spec (Js.of_index (Js.parse_digits (a :: l))) key) as [<-|];
    simpl; [|done].
  destruct (_ <? _)%N; [|done]. by intros [= <-].
Qed.

Lemma member_put current key x y :
  Spec.member current key = Some x →
  Spec.member (JsObject.put current key y) key = Some y.
Proof.
  destruct current; simpl; try done.
  - destruct (Js.array_index key) as [i|] eqn:Hi; [|done]. simpl. rewrite Hi.
    intros Hx. apply list_lookup_insert_eq. by eapply lookup_lt_Some.
  - apply assoc_replace_prop.
Qed.

Lemma member_put_ne current key key' y :
  key' ≠ key →
  Spec.member (JsObject.put current key y) key' = Spec.member current key'.
Proof.
  intros Hne. destruct current; simpl; try done.
  - destruct (Js.array_index key) as [i|] eqn:Hi; [|done]. simpl.
    destruct (Js.array_index key') as [j|] eqn:Hj; [|done].
    apply list_lookup_insert_ne. intros Heq.
    apply array_index_of_index in Hi, Hj. apply Hne.
    rewrite Hi, Hj. f_equal. lia.
  - by apply assoc_replace_prop_ne.
Qed.

Lemma set_object props key v :
  ∃ props', JsObject.set (JObj props) key v = inl (JObj props')
            ∧ (key ≠ "__proto__" → JsObject.assoc key props' = Some v)
            ∧ ∀ key', key' ≠ key →
                JsObject.assoc key' props' = JsObject.assoc key' props.
Proof.
  simpl. destruct (JsObject.assoc key props) as [x|] eqn:Hkey.
  - eexists. split; [reflexivity|]. split.
    + intros _. by eapply assoc_replace_prop.
    + intros key' Hne. by apply assoc_replace_prop_ne.
  - destruct (String.eqb_spec key "__proto__") as [->|Hne].
    + eexists. split; [reflexivity|]. by split.
    + eexists. split; [reflexivity|]. split.
      * intros _. by apply assoc_add_prop.
      * intros key' Hne'. by apply assoc_add_prop_ne.
Qed.

Context (H : Host).

Lemma smallIndex_plain part : arrayMatch part = None → Spec.smallIndex part = true.
Proof. unfold Spec.smallIndex. by intros ->. Qed.

Lemma writePath_reads_back parts : ∀ current lastPart v props,
  Forall (λ part, Spec.smallIndex part = true) parts →
  Spec.resolve current parts = Some (JObj props) →
  arrayMatch lastPart = None →
  ∃ current', writePath H current parts lastPart v = inl current'
              ∧ (lastPart ≠ "__proto__" →
                 Spec.resolve current' (parts ++ [lastPart]) = Some v).
Proof.
  induction parts as [|part rest IH]; intros current lastPart v props Hsmall; simpl.
  - intros [= ->] Hlast. unfold writeLast. rewrite Hlast.
    destruct (set_object props lastPart v) as (props' & Hset & Hv & _).
    exists (JObj props'). split; [exact Hset|]. intros Hname.
    unfold Spec.segment. rewrite Hlast. simpl. by rewrite Hv.
  - apply Forall_cons in Hsmall as [Hpart Hsmall].
    unfold Spec.segment at 1.
    destruct (arrayMatch part) as [[key index]|] eqn:Hmatch.
    + rewrite (parseInt_key_small H _ _ _ Hmatch Hpart).
      destruct (Spec.member current key) as [inner|] eqn:Hinner; [|done].
      destruct (Spec.member inner (Spec.indexName index)) as [next|] eqn:Hnext;
        [|done].
      intros Hrest Hlast.
      destruct (IH next lastPart v props Hsmall Hrest Hlast) as (next' & Hw & Hread).
      rewrite (get_member H _ _ _ Hinner). simpl.
      rewrite (get_member H _ _ _ Hnext). simpl. rewrite Hw. simpl.
      eexists. split; [reflexivity|]. intros Hname.
      unfold Spec.segment. rewrite Hmatch.
      rewrite (member_put _ _ _ _ Hinner), (member_put _ _ _ _ Hnext).
      by apply Hread.
    + destruct (Spec.member current part) as [next|] eqn:Hnext; [|done].
      intros Hrest Hlast.
      destruct (IH next lastPart v props Hsmall Hrest Hlast) as (next' & Hw & Hread).
      rewrite (get_member H _ _ _ Hnext). simpl. rewrite Hw. simpl.
      eexists. split; [reflexivity|]. intros Hname.
      unfold Spec.segment. rewrite Hmatch, (member_put _ _ _ _ Hnext).
      by apply Hread.
Qed.

(** X6: a path write whose intermediate segments all exist and lead to an
    object, with array indices below 2^53, and whose last segment is a
    plain name other than [__proto__], succeeds, and the value written is
    what the path leads to afterwards. *)
Theorem applyJSONPath_reads_back (obj : Json) (path : string) (v : Json)
    (props : list (string * Json)) :
  Forall (λ part, Spec.smallIndex part = true) (Spec.intermediateSegments path) →
  Spec.resolve obj (Spec.intermediateSegments path) = Some (JObj props) →
  arrayMatch (List.last (Js.split "." path) "") = None →
  List.last (Js.split "." path) "" ≠ "__proto__" →
  ∃ obj', applyJSONPath H obj path v = inl obj'
          ∧ Spec.resolve obj' (Js.split "." path) = Some v.
Proof.
  intros Hsmall Hparent Hlast Hname. rewrite applyJSONPath_writePath.
  destruct (writePath_reads_back _ obj _ v props Hsmall Hparent Hlast)
    as (obj' & Hw & Hread).
  exists obj'. split; [exact Hw|].
  specialize (Hread Hname).
  unfold Spec.intermediateSegments in Hread.
  by rewrite <- (removelast_last _ "" (split_nonempty "." path)) in Hread.
Qed.

Lemma writePath_keeps_siblings parts : ∀ current lastPart v props current',
  Forall (λ part, arrayMatch part = None) (parts ++ [lastPart]) →
  Spec.resolve current parts = Some (JObj props) →
  writePath H current parts lastPart v = inl current' →
  ∀ common key rest key' rest',
    (parts ++ [lastPart])%list = (common ++ key :: rest)%list →
    key' ≠ key →
    Spec.resolveKeys current' (common ++ key' :: rest')
    = Spec.resolveKeys current (common ++ key' :: rest').
Proof.
  induction parts as [|part parts IH];
    intros current lastPart v props current' Hplain; simpl.
  - intros [= ->]. apply Forall_cons in Hplain as [Hlast _].
    unfold writeLast. rewrite Hlast.
    destruct (set_object props lastPart v) as (props' & -> & _ & Hothers).
    intros [= <-] common key rest key' rest' Hsplit Hne.
    destruct common as [|c common]; simpl in Hsplit.
    + injection Hsplit as <- _. simpl. by rewrite Hothers.
    + by destruct common.
  - simpl in Hplain. apply Forall_cons in Hplain as [Hpart Hplain].
    unfold Spec.segment. rewrite Hpart.
    destruct (Spec.member current part) as [next|] eqn:Hnext; [|done].
    intros Hparent. rewrite (get_member H _ _ _ Hnext). simpl.
    destruct (writePath H next parts lastPart v) as [next'|] eqn:Hw; simpl; [|done].
    intros [= <-] common key rest key' rest' Hsplit Hne.
    destruct common as [|c common]; simpl in Hsplit.
    + injection Hsplit as <- _. simpl. by rewrite member_put_ne.
    + injection Hsplit as <- Hsplit. simpl.
      rewrite (member_put _ _ _ _ Hnext), Hnext.
      by eapply IH.
Qed.

(** X7: such a write changes nothing beside the path.  When all segments
    are plain names, every path that leaves the written path at some
    segment leads, after the write, to what it led to before. *)
Theorem applyJSONPath_keeps_siblings (obj : Json) (path : string) (v : Json)
    (props : list (string * Json)) :
  Forall (λ part, arrayMatch part = None) (Js.split "." path) →
  Spec.resolve obj (Spec.intermediateSegments path) = Some (JObj props) →
  ∃ obj', applyJSONPath H obj path v = inl obj'
          ∧ ∀ common key rest key' rest',
              Js.split "." path = (common ++ key :: rest)%list →
              key' ≠ key →
              Spec.resolveKeys obj' (common ++ key' :: rest')
              = Spec.resolveKeys obj (common ++ key' :: rest').
Proof.
  intros Hplain Hparent.
  pose proof (removelast_last _ "" (split_nonempty "." path)) as Hsplit.
  assert (Hlast : arrayMatch (List.last (Js.split "." path) "") = None).
  { rewrite Hsplit in Hplain. apply Forall_app in Hplain as [_ Hlast].
    by apply Forall_cons in Hlast as [Hlast _]. }
  assert (Hsmall : Forall (λ part, Spec.smallIndex part = true)
                     (Spec.intermediateSegments path)).
  { rewrite Hsplit in Hplain. apply Forall_app in Hplain as [Hparts _].
    eapply Forall_impl; [exact Hparts|]. intros part. apply smallIndex_plain. }
  rewrite applyJSONPath_writePath.
  destruct (writePath_reads_back _ obj _ v props Hsmall Hparent Hlast)
    as (obj' & Hw & _).
  exists obj'. split; [exact Hw|].
  intros common key rest key' rest' Hpath Hne.
  eapply (writePath_keeps_siblings _ obj _ v props obj'); try eassumption.
  - unfold Spec.intermediateSegments. by rewrite <- Hsplit.
  - unfold Spec.intermediateSegments. by rewrite <- Hsplit.
Qed.

End JsonPathWrites.

(** ** What a rule changes *)

Section Frame.

Import RuleEngine.

Context (H : Host).

Lemma modifyJSONBody_shape action modified modified' :
  modifyJSONBody H action modified = inl modified' →
  ∃ entry newBody,
    modified' = push entry
                  (setContentLength (Js.utf8_length newBody)
                     (with_body (Some (BString newBody)) modified)).
Proof.
  unfold modifyJSONBody.
  destruct (JSON_parse H (bodyStr H (m_body modified))) as [jsonData|]; simpl; [|done].
  destruct (modification action) as [path v|[content|bytes]]; simpl.
  - destruct (applyJSONPath H jsonData path v); simpl; [|done].
    intros [= <-]. by eexists _, _.
  - destruct (JSON_parse H content); simpl; [|done].
    intros [= <-]. by eexists _, _.
  - intros [= <-]. by eexists _, _.
Qed.

(** The four outcomes of a body modification. *)
Lemma applyBodyModification_shape action modified :
  applyBodyModification H action modified = modified
  ∨ (∃ entry, applyBodyModification H action modified = push entry modified)
  ∨ ∃ entry content n,
      applyBodyModification H action modified
      = push entry (setContentLength n (with_body (Some content) modified))
      ∧ match contentType action, content with
        | CtText, BBuffer _ => n = 20
        | _, _ => n = Spec.byteLength content
        end.
Proof.
  unfold applyBodyModification.
  destruct (no_body (m_body modified)); [right; left; by eexists|].
  destruct (contentType action) eqn:Hct.
  - destruct (modifyJSONBody H action modified) as [modified'|message] eqn:Hjson.
    + apply modifyJSONBody_shape in Hjson as (entry & newBody & ->).
      right; right. by eexists _, (BString newBody), _.
    + right; left. by eexists.
  - unfold modifyTextBody. destruct (modification action) as [|content]; [by left|].
    right; right. eexists _, content, _. split; [reflexivity|]. by destruct content.
  - unfold modifyBinaryBody. destruct (modification action) as [|content]; [by left|].
    right; right. eexists _, content, _. split; [reflexivity|]. by destruct content.
Qed.

(** X8: what [applyRule] leaves alone.  The method is never changed; the
    URL only by a redirect rule; the body only by a modifyBody rule; a
    header only by a modifyHeaders rule, or, for [Content-Length] alone, by
    a modifyBody rule.  A mockResponse rule changes nothing but the trace. *)
Theorem applyRule_frame (rule : Rule (RegExp H)) (request : RequestInfo) :
  m_method (applyRule H rule request) = method request
  ∧ (m_url (applyRule H rule request) ≠ url request → ∃ a, action rule = Redirect a)
  ∧ (m_body (applyRule H rule request) ≠ body request →
     ∃ a, action rule = ModifyBody a)
  ∧ ∀ key, m_headers (applyRule H rule request) !! key ≠ headers request !! key →
           (∃ a, action rule = ModifyHeaders a)
           ∨ ((∃ a, action rule = ModifyBody a) ∧ key = "Content-Length").
Proof.
  unfold applyRule.
  set (modified := {| m_url := url request; m_method := method request;
                      m_headers := headers request; m_body := body request;
                      modifications := [] |}).
  destruct (action rule) as [a|a|a|a].
  - unfold applyHeaderModifications.
    destruct (foldl_applyHeaderOperation_frame H (default [] (requestHeaders a))
                modified) as (_ & -> & -> & ->).
    repeat split; try done. intros key _. left. by eexists.
  - destruct (applyURLRedirection_frame H a modified request) as (-> & -> & ->).
    repeat split; try done. intros _. by eexists.
  - destruct (applyBodyModification_shape a modified)
      as [-> | [[entry ->] | (entry & content & n & -> & _)]]; simpl.
    + repeat split; try done.
    + repeat split; try done.
    + repeat split; try done.
      * intros _. by eexists.
      * intros key Hkey. right. split; [by eexists|].
        destruct (decide (key = "Content-Length")) as [->|Hne]; [done|].
        by rewrite lookup_insert_ne in Hkey.
  - simpl. repeat split; try done.
Qed.

(** X9: a body modification either leaves the body and the headers as they
    are, or sets the body and, with it, the [Content-Length] header to the
    size of the new body in bytes, and no other header.  The one exception
    is a text replacement whose content is a buffer: its [Content-Length]
    is 20, the length of [String(buffer)]. *)
Theorem applyBodyModification_content_length
    (action : BodyModification) (modified : ModifiedRequest) :
  (m_body (applyBodyModification H action modified) = m_body modified
   ∧ m_headers (applyBodyModification H action modified) = m_headers modified)
  ∨ ∃ content n,
      m_body (applyBodyModification H action modified) = Some content
      ∧ m_headers (applyBodyModification H action modified)
        = <["Content-Length" := Js.of_int n]> (m_headers modified)
      ∧ match contentType action, content with
        | CtText, BBuffer _ => n = 20
        | _, _ => n = Spec.byteLength content
        end.
Proof.
  destruct (applyBodyModification_shape action modified)
    as [-> | [[entry ->] | (entry & content & n & -> & Hn)]].
  - by left.
  - by left.
  - right. by exists content, n.
Qed.

(** X10: [applyRule] says nothing in exactly two cases: a modifyHeaders
    rule without request operations, and a text or binary modifyBody rule
    that carries a JSON path, on an exchange that has a body.  Every other
    application leaves at least one trace entry. *)
Theorem applyRule_silent_iff (rule : Rule (RegExp H)) (request : RequestInfo) :
  modifications (applyRule H rule request) = []
  ↔ (∃ a, action rule = ModifyHeaders a ∧ default [] (requestHeaders a) = [])
    ∨ (∃ a path v, action rule = ModifyBody a
                   ∧ no_body (body request) = false
                   ∧ contentType a ≠ CtJson
                   ∧ modification a = JSONPathModification path v).
Proof.
  unfold applyRule.
  set (modified := {| m_url := url request; m_method := method request;
                      m_headers := headers request; m_body := body request;
                      modifications := [] |}).
  destruct (action rule) as [a|a|a|a].
  - unfold applyHeaderModifications.
    destruct (foldl_applyHeaderOperation_frame H (default [] (requestHeaders a))
                modified) as (-> & _). simpl. split.
    + intros Hnil. left. exists a. split; [done|].
      by destruct (default [] (requestHeaders a)).
    + intros [(a' & [= <-] & ->) | (a' & ? & ? & ? & _)]; done.
  - unfold applyURLRedirection. split.
    + destruct (redirectedURL H a request); simpl; intros Hnil; discriminate Hnil.
    + intros [(a' & ? & _) | (a' & ? & ? & ? & _)]; done.
  - unfold applyBodyModification. simpl. split.
    + destruct (no_body (body request)) eqn:Hbody; [intros Hnil; discriminate Hnil|].
      destruct (contentType a) eqn:Hct.
      * destruct (modifyJSONBody H a modified) as [modified'|] eqn:Hjson.
        -- apply modifyJSONBody_shape in Hjson as (entry & newBody & ->).
           intros Hnil; discriminate Hnil.
        -- intros Hnil; discriminate Hnil.
      * unfold modifyTextBody.
        destruct (modification a) as [path v|] eqn:Hmod;
          [|intros Hnil; discriminate Hnil].
        intros _. right. exists a, path, v. by rewrite Hct.
      * unfold modifyBinaryBody.
        destruct (modification a) as [path v|] eqn:Hmod;
          [|intros Hnil; discriminate Hnil].
        intros _. right. exists a, path, v. by rewrite Hct.
    + intros [(a' & ? & _) | (a' & path & v & [= <-] & -> & Hct & Hmod)]; [done|].
      destruct (contentType a); [done| |].
      * unfold modifyTextBody. by rewrite Hmod.
      * unfold modifyBinaryBody. by rewrite Hmod.
  - simpl. split; [intros Hnil; discriminate Hnil|].
    intros [(a' & ? & _) | (a' & ? & ? & ? & _)]; done.
Qed.

End Frame.

(** ** Headers, one name at a time *)

Section HeaderNames.

Import RuleEngine.

Context (H : Host).

Lemma header_set_other name s headers (h : string) :
  name ≠ h → header_set name s headers !! h = headers !! h.
Proof.
  intros Hne. unfold header_set.
  destruct (headers !! name); [by rewrite lookup_insert_ne|].
  destruct (String.eqb name "__proto__"); [done|]. by rewrite lookup_insert_ne.
Qed.

Lemma header_set_same name s s' (m1 m2 : gmap string string) :
  m1 !! name = m2 !! name →
  s = s' →
  header_set name s m1 !! name = header_set name s' m2 !! name.
Proof.
  intros Heq ->. unfold header_set. rewrite <- Heq.
  destruct (m1 !! name) eqn:Hm1; [by rewrite !lookup_insert_eq|].
  destruct (String.eqb name "__proto__"); [congruence|].
  by rewrite !lookup_insert_eq.
Qed.

Lemma applyHeaderOperation_other modified op h :
  header op ≠ h →
  m_headers (applyHeaderOperation H modified op) !! h = m_headers modified !! h.
Proof.
  intros Hne. unfold applyHeaderOperation.
  destruct (restricted op); [done|].
  destruct (operation op); simpl.
  - by apply header_set_other.
  - by rewrite lookup_delete_ne.
  - by apply header_set_other.
Qed.

Lemma applyHeaderOperation_same m1 m2 op :
  m_headers m1 !! header op = m_headers m2 !! header op →
  m_headers (applyHeaderOperation H m1 op) !! header op
  = m_headers (applyHeaderOperation H m2 op) !! header op.
Proof.
  intros Heq. unfold applyHeaderOperation.
  destruct (restricted op); [done|].
  destruct (operation op); simpl.
  - by apply header_set_same.
  - by rewrite !lookup_delete_eq.
  - apply header_set_same; [done|]. unfold header_get. by rewrite Heq.
Qed.

Lemma foldl_applyHeaderOperation_own ops h : ∀ m1 m2,
  m_headers m1 !! h = m_headers m2 !! h →
  m_headers (foldl (applyHeaderOperation H) m1 ops) !! h
  = m_headers (foldl (applyHeaderOperation H) m2
                 (List.filter (λ op, String.eqb (header op) h) ops)) !! h.
Proof.
  induction ops as [|op ops IH]; intros m1 m2 Heq; simpl; [done|].
  destruct (String.eqb_spec (header op) h) as [<-|Hne]; simpl.
  - apply IH. by apply applyHeaderOperation_same.
  - apply IH. by rewrite applyHeaderOperation_other.
Qed.

(** X11: the value a header ends with depends on the operations on that
    very name alone, names being compared as they are written: leaving out
    every operation on another name gives the same value for it. *)
Theorem header_depends_on_its_own_operations
    (action : HeaderModification) (modified : ModifiedRequest) (h : string) :
  m_headers (applyHeaderModifications H action modified) !! h
  = m_headers
      (applyHeaderModifications H
         {| requestHeaders :=
              Some (List.filter (λ op, String.eqb (header op) h)
                      (default [] (requestHeaders action)));
            responseHeaders := responseHeaders action |}
         modified) !! h.
Proof.
  unfold applyHeaderModifications. simpl.
  by apply foldl_applyHeaderOperation_own.
Qed.

(** X12: no header-modification action alters a restricted header: the
    value of a header whose lower-cased name is in the restricted set is
    after [applyHeaderModifications] what it was before. *)
Theorem restricted_header_is_never_altered
    (action : HeaderModification) (modified : ModifiedRequest) (h : string) :
  Js.includes SECURITY_RESTRICTED_HEADERS (Js.toLowerCase h) = true →
  m_headers (applyHeaderModifications H action modified) !! h
  = m_headers modified !! h.
Proof.
  intros Hrestricted. unfold applyHeaderModifications.
  generalize (default [] (requestHeaders action)). intros ops. revert modified.
  induction ops as [|op ops IH]; intros modified; simpl; [done|].
  rewrite IH.
  destruct (restricted op) eqn:Hop.
  - by rewrite applyHeaderOperation_restricted.
  - apply applyHeaderOperation_other. intros <-.
    unfold restricted in Hop. unfold Js.includes in Hrestricted. congruence.
Qed.

End HeaderNames.

Lemma restricted_header_is_never_altered_witness :
  Js.includes RuleEngine.SECURITY_RESTRICTED_HEADERS (Js.toLowerCase "Cookie") = true
  ∧ RuleEngine.m_headers
      (RuleEngine.applyHeaderModifications SampleHost.host
         (Samples.headerAction Samples.headerOps) Samples.modified) !! "Cookie"
    = RuleEngine.m_headers Samples.modified !! "Cookie".
Proof.
  split; [reflexivity|].
  apply (restricted_header_is_never_altered SampleHost.host
           (Samples.headerAction Samples.headerOps) Samples.modified "Cookie").
  reflexivity.
Defined.

(** ** Logger: pruning *)

Section Pruning.

Import Logger.

(** X13: what the retention policy leaves is the tail of the stored
    entries that are not older than the cutoff, in the order they were
    stored, the cutoff being the date [setDate] arrives at in the time
    zone of the platform.  None of the entries left is older than it; when
    it is no date at all, no entry is left; with room for at least one
    entry there are at most [maxEntries] of them; with [maxEntries = 0]
    nothing at all is trimmed. *)
Theorem applyRetentionPolicy_bounds
    (tz : TimeZone) (now retentionDays maxEntries : Z) (st : State) :
  (∃ dropped,
     List.filter (notOlder (cutoffDate tz now retentionDays)) (logs st)
     = (dropped
        ++ logs (applyRetentionPolicy tz now retentionDays maxEntries st))%list)
  ∧ Forall (λ log, ∃ cutoff, cutoffDate tz now retentionDays = Some cutoff
                             ∧ cutoff <= entry_timestamp log)
      (logs (applyRetentionPolicy tz now retentionDays maxEntries st))
  ∧ (cutoffDate tz now retentionDays = None →
     logs (applyRetentionPolicy tz now retentionDays maxEntries st) = [])
  ∧ (1 <= maxEntries →
     Z.of_nat (length (logs (applyRetentionPolicy tz now retentionDays maxEntries
                               st)))
     <= maxEntries)
  ∧ (maxEntries = 0 →
     logs (applyRetentionPolicy tz now retentionDays maxEntries st)
     = List.filter (notOlder (cutoffDate tz now retentionDays)) (logs st)).
Proof.
  unfold applyRetentionPolicy. simpl.
  set (kept := List.filter _ (logs st)).
  assert (Hkept : Forall (λ log, ∃ cutoff, cutoffDate tz now retentionDays = Some cutoff
                                           ∧ cutoff <= entry_timestamp log) kept).
  { apply List.Forall_forall. intros log [_ Hlog]%List.filter_In.
    unfold notOlder in Hlog.
    destruct (cutoffDate tz now retentionDays) as [cutoff|]; [|done].
    exists cutoff. split; [done | lia]. }
  assert (Hnone : cutoffDate tz now retentionDays = None → kept = []).
  { intros Hc. unfold kept. rewrite Hc. clear.
    induction (logs st) as [|x l IH]; simpl; [done | exact IH]. }
  unfold Js.slice.
  destruct (Z.ltb_spec maxEntries (Z.of_nat (length kept))) as [Hlt|Hge].
  - set (k := Z.to_nat _). split; [|split; [|split; [|split]]].
    + exists (take k kept). by rewrite take_drop.
    + by apply Forall_drop.
    + intros Hc. rewrite (Hnone Hc). by destruct k.
    + intros Hroom. rewrite length_drop. unfold k.
      destruct (Z.ltb_spec (- maxEntries) 0); lia.
    + intros ->. assert (k = 0%nat) as -> by (unfold k; simpl; lia). done.
  - split; [by exists []|]. split; [exact Hkept|]. split; [exact Hnone|].
    split; [lia | done].
Qed.

(** Across a clock change the cutoff is not [retentionDays] times 24 hours
    back: in a zone one hour ahead of universal time until the time 5000
    and two hours ahead from then on, one day back from 6000 is 23 hours
    back.  Past the range of dates it is no date, and every entry goes. *)
Example cutoffDate_calendar_days :
  let summer :=
    {| LocalTime := λ t, if t <? 5000 then t + 3600000 else t + 7200000;
       UTC := λ t, if t <? 5000 + 3600000 then t - 3600000 else t - 7200000 |} in
  cutoffDate summer 6000 1 = Some (6000 - 86400000 + 3600000)
  ∧ cutoffDate SampleHost.utc 6000 1 = Some (6000 - 86400000)
  ∧ cutoffDate SampleHost.utc 6000 (-100000000) = None
  ∧ logs (applyRetentionPolicy SampleHost.utc 6000 (-100000000) 5 Samples.unordered)
    = [].
Proof. repeat split; vm_compute; reflexivity. Qed.

End Pruning.

(** ** Logger: responses *)

Section Responses.

Import Logger.

Lemma update_first_spec p f l :
  match update_first p f l with
  | Some l' =>
      ∃ before e after,
        l = (before ++ e :: after)%list ∧ Forall (λ x, p x = false) before
        ∧ p e = true ∧ l' = (before ++ f e :: after)%list
  | None => Forall (λ x, p x = false) l
  end.
Proof.
  induction l as [|x l IH]; simpl; [constructor|].
  destruct (p x) eqn:Hx.
  - by exists [], x, l.
  - destruct (update_first p f l) as [l'|].
    + destruct IH as (before & e & after & -> & Hbefore & He & ->).
      exists (x :: before), e, after. repeat split; try done. by constructor.
    + by constructor.
Qed.

Lemma update_first_last p f l e :
  Forall (λ x, p x = false) l → p e = true →
  update_first p f (l ++ [e]) = Some (l ++ [f e])%list.
Proof.
  induction 1 as [|x l Hx _ IH]; intros He; simpl.
  - by rewrite He.
  - by rewrite Hx, IH.
Qed.

Lemma includes_true (l : list string) (x : string) : Js.includes l x = true ↔ x ∈ l.
Proof. unfold Js.includes. apply bool_decide_eq_true. Qed.

Lemma filter_not_included (l : list string) :
  List.filter (λ x, negb (Js.includes l x)) l = [].
Proof.
  assert (Hgen : ∀ k, (∀ x, x ∈ k → x ∈ l) →
                      List.filter (λ x, negb (Js.includes l x)) k = []).
  { induction k as [|y k IH]; intros Hsub; simpl; [done|].
    assert (Js.includes l y = true) as -> by (apply includes_true, Hsub; by left).
    simpl. apply IH. intros x Hx. apply Hsub. by right. }
  by apply Hgen.
Qed.

(** X14: a response that follows the request it answers completes the
    entry of that request.  When no stored entry awaits the exchange,
    [logRequest] followed by [logResponse] for the same exchange and rules
    leaves one new entry, which has the status and the redacted response
    headers, the rule ids and the modifications once each, and one id
    taken. *)
Theorem logResponse_completes_logged_request {RegExp}
    (now now' : Z) (request : RequestInfo) (response : ResponseInfo)
    (appliedRules : list (Rule RegExp)) (st : State) :
  Forall (λ e, awaits request e = false) (logs st) →
  logs (logResponse now' response request appliedRules
          (logRequest now request appliedRules st))
  = (logs st
     ++ [ {| entry_id := fst (generateLogId now st);
             entry_timestamp := timestamp request;
             entry_url := url request;
             entry_method := method request;
             entry_statusCode := Some (res_statusCode response);
             entry_requestHeaders :=
               filterSensitiveData (url request) (headers request);
             entry_responseHeaders :=
               Some (filterSensitiveData (url request) (res_headers response));
             entry_appliedRules := map id appliedRules;
             entry_modifications := extractModifications appliedRules |} ])%list
  ∧ logIdCounter (logResponse now' response request appliedRules
                    (logRequest now request appliedRules st))
    = logIdCounter st + 1.
Proof.
  intros Hnone. unfold logResponse, logRequest. simpl.
  rewrite update_first_last; [| exact Hnone |].
  - simpl. unfold mergeResponse. simpl.
    by rewrite !filter_not_included, !app_nil_r.
  - unfold awaits. simpl.
    rewrite !String.eqb_refl, Z.sub_diag. reflexivity.
Qed.

(** X15: [logResponse] completes the first stored entry that awaits the
    exchange (same URL and method, no status yet, less than 5000 ms away),
    leaving every other entry and the id counter as they are; when no entry
    awaits it, it adds one entry at the end and takes one id. *)
Theorem logResponse_completes_first_awaiting {RegExp}
    (now : Z) (response : ResponseInfo) (request : RequestInfo)
    (appliedRules : list (Rule RegExp)) (st : State) :
  (∃ before e after,
     logs st = (before ++ e :: after)%list
     ∧ Forall (λ x, awaits request x = false) before
     ∧ awaits request e = true
     ∧ logs (logResponse now response request appliedRules st)
       = (before ++ mergeResponse response request appliedRules e :: after)%list
     ∧ logIdCounter (logResponse now response request appliedRules st)
       = logIdCounter st)
  ∨ (Forall (λ x, awaits request x = false) (logs st)
     ∧ (∃ e, logs (logResponse now response request appliedRules st)
             = (logs st ++ [e])%list
             ∧ entry_statusCode e = Some (res_statusCode response)
             ∧ entry_timestamp e = timestamp request)
     ∧ logIdCounter (logResponse now response request appliedRules st)
       = logIdCounter st + 1).
Proof.
  unfold logResponse.
  pose proof (update_first_spec (awaits request)
                (mergeResponse response request appliedRules) (logs st)) as Hspec.
  destruct (update_first _ _ (logs st)) as [logs'|].
  - left. destruct Hspec as (before & e & after & Hlogs & Hbefore & He & ->).
    by exists before, e, after.
  - right. split; [exact Hspec|]. split; [|done]. by eexists.
Qed.

(** X16: completing an entry never records a rule id twice: if the ids
    of the entry are distinct and the ids of the applied rules are
    distinct, the ids of the completed entry are distinct, and they are
    those of the entry, in their order, followed by the new ones. *)
Theorem mergeResponse_keeps_rule_ids_distinct {RegExp}
    (response : ResponseInfo) (request : RequestInfo)
    (appliedRules : list (Rule RegExp)) (e : LogEntry) :
  NoDup (entry_appliedRules e) →
  NoDup (map id appliedRules) →
  NoDup (entry_appliedRules (mergeResponse response request appliedRules e))
  ∧ ∀ i, i ∈ entry_appliedRules (mergeResponse response request appliedRules e)
         ↔ i ∈ entry_appliedRules e ∨ i ∈ map id appliedRules.
Proof.
  intros Hold Hnew. unfold mergeResponse. simpl. split.
  - apply NoDup_app. split; [exact Hold|]. split.
    + intros i Hi Hin. apply list_elem_of_In, List.filter_In in Hin as [_ Hin].
      apply (proj2 (includes_true _ _)) in Hi. simpl in Hin.
      apply negb_true_iff in Hin. congruence.
    + apply NoDup_ListNoDup, List.NoDup_filter, NoDup_ListNoDup, Hnew.
  - intros i. rewrite elem_of_app, !list_elem_of_In, List.filter_In.
    rewrite <- !list_elem_of_In. split.
    + intros [Hi | [Hi _]]; auto.
    + intros [Hi | Hi]; [by left|].
      destruct (Js.includes (entry_appliedRules e) i) eqn:Hinc.
      * left. by apply includes_true.
      * right. by split.
Qed.

End Responses.

Lemma logResponse_completes_logged_request_witness :
  Forall (λ e, Logger.awaits Samples.loggedRequest e = false)
    (Logger.logs Samples.unordered)
  ∧ length (Logger.logs
              (Logger.logResponse 3003
                 {| Logger.res_statusCode := 200; Logger.res_headers := ∅ |}
                 Samples.loggedRequest Samples.noRules
                 (Logger.logRequest 3002 Samples.loggedRequest Samples.noRules
                    Samples.unordered)))
    = 3%nat.
Proof.
  assert (Hnone : Forall (λ e, Logger.awaits Samples.loggedRequest e = false)
                    (Logger.logs Samples.unordered))
    by (repeat constructor).
  split; [exact Hnone|].
  destruct (logResponse_completes_logged_request 3002 3003 Samples.loggedRequest
              {| Logger.res_statusCode := 200; Logger.res_headers := ∅ |}
              Samples.noRules Samples.unordered Hnone) as [-> _].
  reflexivity.
Defined.

Lemma mergeResponse_keeps_rule_ids_distinct_witness :
  NoDup (entry_appliedRules Samples.partly)
  ∧ NoDup (map id Samples.activeRules)
  ∧ entry_appliedRules
      (Logger.mergeResponse
         {| Logger.res_statusCode := 200; Logger.res_headers := ∅ |}
         Samples.loggedRequest Samples.activeRules Samples.partly)
    = ["8"; "x"; "7"; "9"; "10"]
  ∧ NoDup (entry_appliedRules
             (Logger.mergeResponse
                {| Logger.res_statusCode := 200; Logger.res_headers := ∅ |}
                Samples.loggedRequest Samples.activeRules Samples.partly)).
Proof.
  assert (Hold : NoDup (entry_appliedRules Samples.partly)).
  { apply NoDup_ListNoDup. repeat constructor; simpl; intuition discriminate. }
  assert (Hnew : NoDup (map id Samples.activeRules)).
  { apply NoDup_ListNoDup. repeat constructor; simpl; intuition discriminate. }
  split; [exact Hold|]. split; [exact Hnew|]. split; [vm_compute; reflexivity|].
  exact (proj1 (mergeResponse_keeps_rule_ids_distinct
                  {| Logger.res_statusCode := 200; Logger.res_headers := ∅ |}
                  Samples.loggedRequest Samples.activeRules Samples.partly Hold Hnew)).
Defined.

(** ** Sorting and filtering *)

Section SortFilter.

Context {A : Type} (key : A → Z) (cmp : A → A → Z).
Hypothesis cmp_key : ∀ a b, cmp a b <= 0 ↔ key a <= key b.

Lemma sort_insert_first (x : A) (l : list A) :
  Forall (λ a, key x <= key a) l → Js.sort_insert cmp x l = x :: l.
Proof.
  destruct 1 as [|y l Hxy _]; simpl; [done|].
  apply cmp_key in Hxy. by destruct (Z.leb_spec (cmp x y) 0); [|lia].
Qed.

Lemma filter_sort_insert (q : A → bool) (x : A) (l : list A) :
  StronglySorted (Spec.ascending key) l →
  List.filter q (Js.sort_insert cmp x l)
  = if q x then Js.sort_insert cmp x (List.filter q l) else List.filter q l.
Proof.
  induction 1 as [|y l Hsorted IH Hall]; simpl.
  - by destruct (q x).
  - destruct (Z.leb_spec (cmp x y) 0) as [Hle|Hgt]; simpl.
    + apply cmp_key in Hle. destruct (q x); [|done].
      symmetry. apply sort_insert_first.
      assert (Hge : Forall (λ a, key x <= key a) (List.filter q l)).
      { apply List.Forall_forall. intros a [Ha _]%List.filter_In.
        eapply List.Forall_forall in Hall; [|exact Ha].
        unfold Spec.ascending in Hall. lia. }
      destruct (q y); [constructor; [lia | exact Hge] | exact Hge].
    + rewrite IH. destruct (q y), (q x); simpl; try done.
      by destruct (Z.leb_spec (cmp x y) 0); [lia|].
Qed.

Lemma filter_sort (q : A → bool) (l : list A) :
  List.filter q (Js.sort cmp l) = Js.sort cmp (List.filter q l).
Proof.
  unfold Js.sort. induction l as [|x l IH]; simpl; [done|].
  rewrite filter_sort_insert by apply (sort_by_key_sorted key cmp cmp_key).
  rewrite IH. by destruct (q x).
Qed.

End SortFilter.

(** ** Logger: clearing and retrieving *)

Section Clearing.

Import Logger.

Context (H : Host).

Lemma chronological_key (a b : LogEntry) :
  chronological a b <= 0 ↔ entry_timestamp a <= entry_timestamp b.
Proof. unfold chronological. lia. Qed.

Lemma filter_swap {A} (p q : A → bool) (l : list A) :
  List.filter p (List.filter q l) = List.filter q (List.filter p l).
Proof.
  rewrite !filter_twice. apply List.filter_ext. intros x. apply andb_comm.
Qed.

Lemma applyFilter_filter (f : LogFilter) (q : LogEntry → bool) (l : list LogEntry) :
  applyFilter H f (List.filter q l)
  = (let! result := applyFilter H f l in Js.ret (List.filter q result)).
Proof.
  unfold applyFilter.
  assert (Hurl : ∃ byUrl : Js.Exn (LogEntry → bool),
    ∀ l', (if Js.truthy_opt (filter_urlPattern f) then
             let! pattern := new_RegExp H (Js.or_empty (filter_urlPattern f)) in
             Js.ret (List.filter (λ log, RegExp_test H pattern (entry_url log)) l')
           else Js.ret l')
          = (let! p := byUrl in Js.ret (List.filter p l'))).
  { destruct (Js.truthy_opt (filter_urlPattern f)).
    - destruct (new_RegExp H (Js.or_empty (filter_urlPattern f))) as [re|message].
      + by exists (inl (λ log, RegExp_test H re (entry_url log))).
      + by exists (inr message).
    - exists (inl (λ _, true)). intros l'. simpl. unfold Js.ret. f_equal.
      induction l' as [|x l' IH]; simpl; congruence. }
  destruct Hurl as [byUrl Hurl]. rewrite !Hurl.
  destruct byUrl as [p|message]; simpl; [|done].
  unfold Js.ret. f_equal. rewrite (filter_swap p q).
  destruct (Js.truthy_opt (filter_method f)); rewrite ?(filter_swap _ q);
    destruct (filter_statusCode f); rewrite ?(filter_swap _ q);
    destruct (filter_hasModifications f); rewrite ?(filter_swap _ q);
    destruct (filter_dateRange f); rewrite ?(filter_swap _ q); reflexivity.
Qed.

Lemma getLogs_filter (f : option LogFilter) (q : LogEntry → bool) (st : State) :
  getLogs H f {| logs := List.filter q (logs st); logIdCounter := logIdCounter st |}
  = (let! result := getLogs H f st in Js.ret (List.filter q result)).
Proof.
  unfold getLogs. simpl. destruct f as [f|]; simpl.
  - rewrite applyFilter_filter.
    destruct (applyFilter H f (logs st)) as [result|]; simpl; [|done].
    by rewrite (filter_sort entry_timestamp chronological chronological_key).
  - by rewrite (filter_sort entry_timestamp chronological chronological_key).
Qed.

(** X17: clearing and retrieving commute.  After [clearLogs(olderThan)],
    [getLogs] returns what it returned before without the entries older
    than [olderThan], in the same order; after [clearLogs()] it returns the
    empty list.  A [urlPattern] that is no regular expression makes it
    throw after the clearing as before. *)
Theorem getLogs_after_clearLogs (f : option LogFilter) (olderThan : Z) (st : State) :
  getLogs H f (clearLogs (Some olderThan) st)
  = (let! result := getLogs H f st in
     Js.ret (List.filter (λ log, olderThan <=? entry_timestamp log) result))
  ∧ getLogs H f (clearLogs None st)
    = (let! result := getLogs H f st in Js.ret []).
Proof.
  split.
  - apply getLogs_filter.
  - pose proof (getLogs_filter f (λ _, false) st) as Hnone.
    assert (Hnil : ∀ l : list LogEntry, List.filter (λ _, false) l = []).
    { induction l as [|x l IH]; simpl; congruence. }
    rewrite Hnil in Hnone. unfold clearLogs. rewrite Hnone.
    destruct (getLogs H f st) as [result|]; simpl; [|done]. by rewrite Hnil.
Qed.

(** X18: among entries of equal timestamp, [getLogs] keeps the order of
    insertion: for a filter whose [urlPattern], when supplied and not
    empty, is a regular expression, the entries it returns for any one
    timestamp are the selected stored entries of that timestamp in the
    order they are stored in. *)
Theorem getLogs_keeps_insertion_order_of_ties (f : option LogFilter) (st : State) :
  (∀ flt pattern,
     f = Some flt → Spec.nonEmpty (filter_urlPattern flt) = Some pattern →
     ∃ re, new_RegExp H pattern = inl re) →
  ∃ result,
    getLogs H f st = inl result
    ∧ ∀ t, List.filter (λ log, entry_timestamp log =? t) result
           = List.filter (λ log, entry_timestamp log =? t)
               (List.filter (Spec.selected H f) (logs st)).
Proof.
  intros Hvalid.
  assert (Hfiltered :
    match f with
    | Some f => applyFilter H f (logs st)
    | None => Js.ret (logs st)
    end = inl (List.filter (Spec.selected H f) (logs st))).
  { destruct f as [flt|]; simpl.
    - apply applyFilter_selects. intros pattern Hp. by eapply Hvalid.
    - unfold Js.ret. f_equal. induction (logs st) as [|x l IH]; simpl; congruence. }
  eexists. unfold getLogs. rewrite Hfiltered. simpl. split; [reflexivity|].
  intros t. apply (sort_by_key_stable entry_timestamp chronological chronological_key).
Qed.

(** X19: redaction keeps the header names and is idempotent: the redacted
    map has the names of the original one, all of them on a URL that does
    not start with [https://] and all but [__proto__] on one that does,
    and redacting it again for the same URL changes nothing. *)
Theorem filterSensitiveData_idempotent (u : string) (hs : gmap string string) :
  (∀ key, is_Some (filterSensitiveData u hs !! key)
          ↔ is_Some (hs !! key)
            ∧ ¬ (Js.startsWith u "https://" = true ∧ key = "__proto__"))
  ∧ filterSensitiveData u (filterSensitiveData u hs) = filterSensitiveData u hs.
Proof.
  split.
  - intros key. rewrite filterSensitiveData_lookup. unfold Spec.recorded.
    destruct (Js.startsWith u "https://"); simpl.
    + destruct (String.eqb_spec key "__proto__") as [->|Hne].
      * split; [by intros [? ?] | by intros [_ []]].
      * rewrite fmap_is_Some. split; [by intros ?; split; [|intros [_ ?]] | by intros [? _]].
    + rewrite fmap_is_Some. split; [by intros ?; split; [|intros [? _]] | by intros [? _]].
  - apply map_eq. intros key. rewrite !filterSensitiveData_lookup.
    unfold Spec.recorded. destruct (_ && _); [done|].
    destruct (hs !! key) as [v|]; simpl; [|done]. f_equal.
    unfold Spec.redacted. by destruct (_ && _).
Qed.

End Clearing.

Lemma getLogs_keeps_insertion_order_of_ties_witness :
  (∀ flt pattern,
     Some Samples.anyExample = Some flt →
     Spec.nonEmpty (filter_urlPattern flt) = Some pattern →
     ∃ re, new_RegExp SampleHost.host pattern = inl re)
  ∧ map entry_url (Logger.logs Samples.tied)
    = [ "https://api.example.com/b"; "https://api.example.com/c";
        "https://api.example.com/a" ]
  ∧ ∃ result,
      Logger.getLogs SampleHost.host (Some Samples.anyExample) Samples.tied
      = inl result
      ∧ map entry_url result
        = [ "https://api.example.com/c"; "https://api.example.com/a";
            "https://api.example.com/b" ]
      ∧ ∀ t, List.filter (λ log, entry_timestamp log =? t) result
             = List.filter (λ log, entry_timestamp log =? t)
                 (List.filter (Spec.selected SampleHost.host (Some Samples.anyExample))
                    (Logger.logs Samples.tied)).
Proof.
  assert (Hvalid : ∀ flt pattern,
     Some Samples.anyExample = Some flt →
     Spec.nonEmpty (filter_urlPattern flt) = Some pattern →
     ∃ re, new_RegExp SampleHost.host pattern = inl re).
  { intros flt pattern [= <-] [= <-]. eexists. vm_compute. reflexivity. }
  split; [exact Hvalid|]. split; [vm_compute; reflexivity|].
  destruct (getLogs_keeps_insertion_order_of_ties SampleHost.host
              (Some Samples.anyExample) Samples.tied Hvalid)
    as (result & Hresult & Hties).
  exists result. split; [exact Hresult|]. split; [|exact Hties].
  assert (Hrun : Logger.getLogs SampleHost.host (Some Samples.anyExample) Samples.tied
                 = inl (Js.sort Logger.chronological (Logger.logs Samples.tied)))
    by (vm_compute; reflexivity).
  rewrite Hrun in Hresult. injection Hresult as <-. vm_compute. reflexivity.
Defined.

Lemma applyJSONPath_reads_back_witness :
  Forall (λ part, Spec.smallIndex part = true) (Spec.intermediateSegments "items[1].id")
  ∧ Spec.resolve Samples.catalogue (Spec.intermediateSegments "items[1].id")
    = Some (JObj [("id", JNum "2")])
  ∧ RuleEngine.arrayMatch (List.last (Js.split "." "items[1].id") "") = None
  ∧ List.last (Js.split "." "items[1].id") "" ≠ "__proto__"
  ∧ ∃ obj', RuleEngine.applyJSONPath SampleHost.host Samples.catalogue
              "items[1].id" (JStr "b")
            = inl obj'
            ∧ Spec.resolve obj' (Js.split "." "items[1].id") = Some (JStr "b").
Proof.
  assert (Hsmall : Forall (λ part, Spec.smallIndex part = true)
                     (Spec.intermediateSegments "items[1].id"))
    by (repeat constructor).
  assert (Hname : List.last (Js.split "." "items[1].id") "" ≠ "__proto__")
    by discriminate.
  split; [exact Hsmall|]. split; [reflexivity|]. split; [reflexivity|].
  split; [exact Hname|].
  apply (applyJSONPath_reads_back SampleHost.host Samples.catalogue "items[1].id"
           (JStr "b") [("id", JNum "2")]); try reflexivity; assumption.
Defined.

Lemma applyJSONPath_keeps_siblings_witness :
  Forall (λ part, RuleEngine.arrayMatch part = None) (Js.split "." "user.name")
  ∧ Spec.resolve Samples.document (Spec.intermediateSegments "user.name")
    = Some (JObj [("name", JStr "a"); ("email", JStr "e")])
  ∧ ∃ obj', RuleEngine.applyJSONPath SampleHost.host Samples.document "user.name"
              (JStr "b")
            = inl obj'
            ∧ Spec.resolveKeys obj' ["user"; "email"] = Some (JStr "e")
            ∧ Spec.resolveKeys obj' ["n"; "1"] = Some (JNum "2").
Proof.
  assert (Hplain : Forall (λ part, RuleEngine.arrayMatch part = None)
                     (Js.split "." "user.name"))
    by (repeat constructor).
  split; [exact Hplain|]. split; [reflexivity|].
  destruct (applyJSONPath_keeps_siblings SampleHost.host Samples.document
              "user.name" (JStr "b")
              [("name", JStr "a"); ("email", JStr "e")] Hplain eq_refl)
    as (obj' & Happly & Hsiblings).
  exists obj'. split; [exact Happly|]. split.
  - assert (Hne : "email" ≠ "name") by discriminate.
    pose proof (Hsiblings ["user"] "name" [] "email" [] eq_refl Hne) as Hs.
    simpl app in Hs. rewrite Hs. reflexivity.
  - assert (Hne : "n" ≠ "user") by discriminate.
    pose proof (Hsiblings [] "user" ["name"] "n" ["1"] eq_refl Hne) as Hs.
    simpl app in Hs. rewrite Hs. reflexivity.
Defined.

(** What the provisos of X6 are for.  A write under the name [__proto__]
    is the setter of [Object.prototype] and stores nothing; an index from
    2^53 on is rounded by [parseInt], so the element named is not the one
    read. *)
Example applyJSONPath_proto_and_large_index :
  RuleEngine.applyJSONPath SampleHost.host (JObj []) "__proto__" (JStr "x")
  = inl (JObj [])
  ∧ RuleEngine.parseInt_key SampleHost.host "9007199254740993"
    = "9007199254740992"
  ∧ Spec.indexName "9007199254740993" = "9007199254740993"
  ∧ Js.throws
      (RuleEngine.applyJSONPath SampleHost.host
         (JObj [("a", JObj [("9007199254740993", JObj [])])])
         "a[9007199254740993].x" (JStr "x")).
Proof.
  repeat split; try (vm_compute; reflexivity).
  eexists. vm_compute. reflexivity.
Qed.

(** ** Logger: ids *)

Section LogIds.

Import Logger.

Lemma digits_dash (a b : string) : Spec.digits (a +:+ String "-" b) = false.
Proof.
  unfold Spec.digits. induction a as [|c a IH]; simpl; [done|].
  rewrite IH. apply andb_false_r.
Qed.

Lemma after_last_dash (s1 : string) : ∀ s2 d1 d2,
  s1 +:+ String "-" d1 = s2 +:+ String "-" d2 →
  Spec.digits d1 = true → Spec.digits d2 = true → d1 = d2.
Proof.
  induction s1 as [|c s1 IH]; intros [|c' s2] d1 d2; simpl.
  - by intros [= ->].
  - intros [= <- ->] Hd1 _. by rewrite digits_dash in Hd1.
  - intros [= -> <-] _ Hd2. by rewrite digits_dash in Hd2.
  - intros [= _ Hrest]. by apply (IH s2).
Qed.

Lemma pretty_N_go_digits (x : N) : ∀ s,
  Spec.digits s = true → Spec.digits (pretty_N_go x s) = true.
Proof.
  induction (N.lt_wf_0 x) as [x _ IH]; intros s Hs.
  assert (x = 0 ∨ 0 < x)%N as [->|Hpos] by lia.
  - by rewrite pretty_N_go_0.
  - rewrite pretty_N_go_step by done. apply IH; [by apply N.div_lt|].
    unfold Spec.digits in *. simpl. rewrite Hs, andb_true_r.
    unfold pretty_N_char. by repeat case_match.
Qed.

Lemma of_int_digits (c : Z) : 0 <= c → Spec.digits (Js.of_int c) = true.
Proof.
  destruct c as [|p|p]; [done| |lia]. intros _.
  unfold Js.of_int, pretty, pretty_Z, pretty, pretty_positive, pretty, pretty_N.
  destruct (decide (N.pos p = 0%N)); [done|].
  by apply pretty_N_go_digits.
Qed.

Lemma generateLogId_counter (now now' c c' : Z) :
  0 <= c → 0 <= c' →
  "log-" +:+ Js.of_int now +:+ "-" +:+ Js.of_int c
  = "log-" +:+ Js.of_int now' +:+ "-" +:+ Js.of_int c' →
  c = c'.
Proof.
  intros Hc Hc'. simpl. intros [= Hid].
  apply after_last_dash in Hid; [|by apply of_int_digits..].
  by apply (inj pretty) in Hid.
Qed.

Lemma map_sublist {A B} (f : A → B) (l k : list A) :
  sublist l k → sublist (map f l) (map f k).
Proof. induction 1; simpl; by constructor. Qed.

Lemma filter_sublist {A} (p : A → bool) (l : list A) : sublist (List.filter p l) l.
Proof.
  induction l as [|x l IH]; simpl; [constructor|].
  destruct (p x); by constructor.
Qed.

Lemma sublist_Forall {A} (P : A → Prop) (l k : list A) :
  sublist l k → Forall P k → Forall P l.
Proof.
  induction 1 as [|x l k _ IH|x l k _ IH]; [done|..];
    intros [Hx Hk]%Forall_cons; [constructor|]; auto.
Qed.

Lemma issued_sublist (st : State) (l : list LogEntry) :
  sublist l (logs st) → Spec.issued st →
  Spec.issued {| logs := l; logIdCounter := logIdCounter st |}.
Proof.
  intros Hsub (Hc & Hnodup & Hall). unfold Spec.issued. simpl.
  split; [exact Hc|]. split.
  - eapply sublist_NoDup; [exact Hnodup | by apply map_sublist].
  - eapply sublist_Forall; [exact Hsub | exact Hall].
Qed.

Lemma issued_push (now : Z) (e : LogEntry) (st : State) :
  entry_id e = fst (generateLogId now st) → Spec.issued st →
  Spec.issued {| logs := (logs st ++ [e])%list; logIdCounter := snd (generateLogId now st) |}.
Proof.
  intros He (Hc & Hnodup & Hall). unfold Spec.issued. simpl.
  split; [lia|]. split.
  - rewrite map_app. simpl. apply NoDup_app. split; [exact Hnodup|].
    split; [|apply NoDup_singleton].
    intros i Hi ->%list_elem_of_singleton.
    apply list_elem_of_fmap in Hi as (e' & Hid & He').
    eapply List.Forall_forall in Hall; [|by apply list_elem_of_In].
    destruct Hall as (now' & c & Hrange & Hid').
    rewrite He, Hid' in Hid. simpl in Hid.
    apply generateLogId_counter in Hid; lia.
  - apply Forall_app. split.
    + eapply Forall_impl; [exact Hall|]. simpl.
      intros e' (now' & c & Hrange & Hid). exists now', c. split; [lia | exact Hid].
    + constructor; [|constructor]. exists now, (logIdCounter st). split; [lia|].
      by rewrite He.
Qed.

Lemma issued_operated {RegExp} (st : State) :
  Spec.operated (RegExp := RegExp) st → Spec.issued st.
Proof.
  induction 1 as [|now request rules st _ IH|now response request rules st _ IH
                  |olderThan st _ IH|tz now retentionDays maxEntries st _ IH].
  - unfold Spec.issued. simpl. split; [done|]. split; constructor.
  - by apply issued_push.
  - unfold logResponse.
    pose proof (update_first_spec (awaits request)
                  (mergeResponse response request rules) (logs st)) as Hspec.
    destruct (update_first _ _ (logs st)) as [logs'|].
    + destruct Hspec as (before & e & after & Hlogs & _ & _ & ->).
      destruct IH as (Hc & Hnodup & Hall). unfold Spec.issued. simpl.
      rewrite Hlogs in Hnodup, Hall. split; [exact Hc|]. split.
      * by rewrite map_app in *.
      * apply Forall_app in Hall as [Hbefore Hrest].
        apply Forall_cons in Hrest as [He Hafter].
        apply Forall_app. split; [exact Hbefore|]. by constructor.
    + by apply issued_push.
  - destruct olderThan as [t|]; simpl.
    + apply issued_sublist; [apply filter_sublist | exact IH].
    + apply issued_sublist; [apply sublist_nil_l | exact IH].
  - unfold applyRetentionPolicy. apply issued_sublist; [|exact IH].
    destruct (_ <? _).
    + etrans; [apply sublist_drop | apply filter_sublist].
    + apply filter_sublist.
Qed.

(** X20: the ids of the stored entries are distinct.  In a logger that
    started empty and was used through [logRequest], [logResponse],
    [clearLogs] and [applyRetentionPolicy] only, whatever the clock said at
    each call and in whatever time zone, no two entries have the same id. *)
Theorem log_ids_are_distinct {RegExp} (st : State) :
  Spec.operated (RegExp := RegExp) st → NoDup (map entry_id (logs st)).
Proof. intros Hst. by destruct (issued_operated st Hst) as (_ & Hnodup & _). Qed.

End LogIds.

Lemma log_ids_are_distinct_witness :
  Spec.operated (RegExp := SampleHost.Regex) Samples.unordered
  ∧ NoDup (map entry_id (Logger.logs Samples.unordered)).
Proof.
  assert (Hst : Spec.operated (RegExp := SampleHost.Regex) Samples.unordered)
    by (repeat constructor).
  split; [exact Hst|].
  exact (log_ids_are_distinct Samples.unordered Hst).
Defined.

(** ** applyHeaderModifications: the last write *)

Section LastWrite.

Import RuleEngine.

Context (H : Host).

Lemma foldl_applyHeaderOperation_others after h : ∀ modified,
  Forall (λ o, header o ≠ h) after →
  m_headers (foldl (applyHeaderOperation H) modified after) !! h
  = m_headers modified !! h.
Proof.
  induction after as [|o after IH]; intros modified Hafter; simpl; [done|].
  apply Forall_cons in Hafter as [Ho Hafter].
  rewrite IH by done. by apply applyHeaderOperation_other.
Qed.

(** X21: the last Set or Remove on a header decides it.  When an
    unrestricted Set or Remove on a header other than [__proto__] is
    followed by no operation on that name, the header ends as that
    operation leaves it, a Set with its value ([''] when the value is
    missing or empty) and a Remove absent, whatever the request carried and
    whatever the earlier operations did. *)
Theorem last_set_or_remove_decides
    (action : HeaderModification) (modified : ModifiedRequest)
    (before after : list HeaderOperation) (op : HeaderOperation) :
  requestHeaders action = Some (before ++ op :: after)%list →
  restricted op = false →
  operation op ≠ OpAppend →
  header op ≠ "__proto__" →
  Forall (λ o, header o ≠ header op) after →
  m_headers (applyHeaderModifications H action modified) !! header op
  = match operation op with
    | OpRemove => None
    | _ => Some (Js.or_empty (value op))
    end.
Proof.
  intros Hops Hop Hkind Hname Hafter. unfold applyHeaderModifications.
  rewrite Hops. simpl. rewrite foldl_app. simpl.
  rewrite foldl_applyHeaderOperation_others by done.
  unfold applyHeaderOperation. rewrite Hop.
  destruct (operation op); simpl.
  - rewrite header_set_plain by done. by rewrite lookup_insert_eq.
  - by rewrite lookup_delete_eq.
  - done.
Qed.

End LastWrite.

Lemma last_set_or_remove_decides_witness :
  requestHeaders (Samples.headerAction Samples.rewrites) = Some Samples.rewrites
  ∧ RuleEngine.m_headers
      (RuleEngine.applyHeaderModifications SampleHost.host
         (Samples.headerAction Samples.rewrites) Samples.modified) !! "X-Tag"
    = Some "v".
Proof.
  split; [reflexivity|].
  apply (last_set_or_remove_decides SampleHost.host
           (Samples.headerAction Samples.rewrites) Samples.modified
           [Samples.appendTag]
           [ {| operation := OpAppend; header := "Accept"; value := Some "text/plain" |};
             {| operation := OpRemove; header := "X-Test"; value := None |} ]
           {| operation := OpSet; header := "X-Tag"; value := Some "v" |});
    [reflexivity | reflexivity | discriminate | discriminate
    | repeat constructor; discriminate].
Defined.
